(** * midipi/wires.py: a MIDI router

    A shallow embedding of [src/app/midipi/wires.py] and the properties of
    its device matching, wiring, forwarding and tear-down.

    Python objects that are mutated and shared ([MidiDevice] instances held
    by several lists and routes at once) live in an explicit store and are
    named by their index in it.  Calls into the [rtmidi] driver are recorded
    as events of a log, tagged with the driver object they are made on.
    Methods are computations of a state monad with exceptions: an exception
    keeps the state reached when it was raised, as in Python. *)

From Stdlib Require Import ZArith Ascii String Lia.
From stdpp Require Import base list strings.

Local Open Scope string_scope.
Local Open Scope list_scope.

(** ** Strings: [str.lower] and the [in] operator

    The development is about ASCII text: device names and specifications
    whose characters all have a code below 128.  On such text [str.lower]
    maps [A-Z] to [a-z] and keeps every other character, which is what
    [lower] does.  Beyond ASCII [str.lower] folds further letters and
    [lower] does not follow it, so every statement that depends on what
    [lower] computes assumes [is_ascii] of the strings it is about. *)

Definition is_upper (c : ascii) : bool :=
  (65 <=? nat_of_ascii c)%nat && (nat_of_ascii c <=? 90)%nat.

Definition lower_ascii (c : ascii) : ascii :=
  if is_upper c then ascii_of_nat (nat_of_ascii c + 32) else c.

Fixpoint lower (s : string) : string :=
  match s with
  | EmptyString => EmptyString
  | String c t => String (lower_ascii c) (lower t)
  end.

(** The text the model follows Python on. *)
Fixpoint is_ascii (s : string) : bool :=
  match s with
  | EmptyString => true
  | String c t => (nat_of_ascii c <? 128)%nat && is_ascii t
  end.

(** Case-insensitive equality of ASCII text, said without [lower]: two
    characters are the same letter when they are equal or one is a capital
    of [A-Z] and the other the small letter 32 codes above it. *)
Definition same_letter (a b : ascii) : Prop :=
  a = b \/
  (is_upper a = true /\ nat_of_ascii b = nat_of_ascii a + 32) \/
  (is_upper b = true /\ nat_of_ascii a = nat_of_ascii b + 32).

Inductive same_up_to_case : string -> string -> Prop :=
| same_case_nil : same_up_to_case EmptyString EmptyString
| same_case_cons (a b : ascii) (s t : string) :
    same_letter a b -> same_up_to_case s t ->
    same_up_to_case (String a s) (String b t).

Fixpoint no_upper (s : string) : bool :=
  match s with
  | EmptyString => true
  | String c t => negb (is_upper c) && no_upper t
  end.

Fixpoint starts_with (needle hay : string) : bool :=
  match needle, hay with
  | EmptyString, _ => true
  | String _ _, EmptyString => false
  | String a n', String b h' => if Ascii.eqb a b then starts_with n' h' else false
  end.

(** [needle in hay] on Python strings. *)
Fixpoint str_in (needle hay : string) : bool :=
  starts_with needle hay ||
  match hay with
  | EmptyString => false
  | String _ h' => str_in needle h'
  end.

(** ** Specifications *)

(** What a wiring rule names a device by: a plain [str], or [ExactMatch]. *)
Inductive user_spec :=
| StrSpec (s : string)
| ExactMatch (name : string).

(** What a wiring rule filters channels by: the [all_channels] object, or an
    [int] numbered from 1. *)
Inductive channel_spec :=
| AllChannels
| IntChannel (n : Z).

(** [channel == v]: [AllChannels.__eq__] answers [True] to everything. *)
Definition channel_eq (channel : channel_spec) (v : Z) : bool :=
  match channel with
  | AllChannels => true
  | IntChannel n => Z.eqb n v
  end.

Definition wiring_rule : Type := user_spec * channel_spec * user_spec.
Definition Wiring : Type := list wiring_rule.

(** ** Devices and the driver *)

(** The address of a [MidiDevice] object in the store. *)
Abbreviation ref := nat (only parsing).
(** The identity of a driver object ([rtmidi.MidiIn] or [rtmidi.MidiOut]). *)
Abbreviation handle := nat (only parsing).

Record MidiDevice := mkDevice {
  full_name : string;
  port : nat;
  input : option handle;
  output : option handle;
  forwards : list (ref * channel_spec)
}.

(** [MidiDevice.matches] *)
Definition matches (self : MidiDevice) (spec : user_spec) : bool :=
  match spec with
  | StrSpec s => str_in (lower s) (lower (full_name self))
  | ExactMatch name => String.eqb name (full_name self)
  end.

(** Constants of [rtmidi.midiconstants]. *)
Definition CONTROL_CHANGE : Z := 176.        (* 0xB0 *)
Definition ALL_SOUND_OFF : Z := 120.         (* 0x78 *)
Definition RESET_ALL_CONTROLLERS : Z := 121. (* 0x79 *)
Definition ALL_NOTES_OFF : Z := 123.         (* 0x7B *)

(** Lines written to [sys.stderr] by [Station.wire]. *)
Inductive diagnostic :=
| NoInputMatching (spec : user_spec)
| NoOutputMatching (spec : user_spec)
| Skipping.

Inductive Event :=
| EvOpenIn (h : handle) (portnum : nat)
| EvSetCallback (h : handle) (device : ref)
| EvCloseIn (h : handle)
| EvOpenOut (h : handle) (portnum : nat)
| EvSend (h : handle) (message : list Z)
| EvCloseOut (h : handle)
| EvStderr (line : diagnostic).

(** What the driver enumerates when asked: port names, in port order. *)
Record Ports := mkPorts {
  in_ports : list string;
  out_ports : list string
}.

Inductive exn :=
| ValueError_no_wiring_set              (* raise ValueError("No wiring set") *)
| Exception_more_than_one (spec : user_spec)
                                        (* raise Exception("More than one devices match ...") *)
| AttributeError_none                   (* a method called on [None] *)
| IndexError_empty.                     (* [message[0]] of an empty message *)

Inductive result (A : Type) :=
| Ok (a : A)
| Raise (e : exn).
Arguments Ok {A} a.
Arguments Raise {A} e.

(** The [Station] object (first three fields), the store of [MidiDevice]
    objects, the next free driver object and the log of driver calls. *)
Record State := mkState {
  input_devices : list ref;
  output_devices : list ref;
  last_wiring : option Wiring;
  heap : list MidiDevice;
  next_handle : handle;
  log : list Event
}.

(** [Station.__init__] in an empty world. *)
Definition init : State := mkState [] [] None [] 0 [].

Definition M (A : Type) : Type := State -> result A * State.

Definition ret {A} (a : A) : M A := fun s => (Ok a, s).
Definition raise {A} (e : exn) : M A := fun s => (Raise e, s).
Definition bind {A B} (m : M A) (k : A -> M B) : M B :=
  fun s => match m s with
           | (Ok a, s') => k a s'
           | (Raise e, s') => (Raise e, s')
           end.

Declare Scope py_scope.
Delimit Scope py_scope with py.
Notation "x <- m ; k" := (bind m (fun x => k))
  (at level 100, m at next level, right associativity) : py_scope.
Notation "m ;; k" := (bind m (fun _ => k))
  (at level 100, right associativity) : py_scope.
Local Open Scope py_scope.

Definition gets {A} (f : State -> A) : M A := fun s => (Ok (f s), s).
Definition modify (f : State -> State) : M unit := fun s => (Ok tt, f s).

Fixpoint for_each {A} (l : list A) (body : A -> M unit) : M unit :=
  match l with
  | [] => ret tt
  | x :: l' => body x ;; for_each l' body
  end.

(** State updates, one per assigned attribute. *)
Definition set_input_devices (l : list ref) (s : State) : State :=
  mkState l (output_devices s) (last_wiring s) (heap s) (next_handle s) (log s).
Definition set_output_devices (l : list ref) (s : State) : State :=
  mkState (input_devices s) l (last_wiring s) (heap s) (next_handle s) (log s).
Definition set_last_wiring (w : option Wiring) (s : State) : State :=
  mkState (input_devices s) (output_devices s) w (heap s) (next_handle s) (log s).
Definition set_heap (h : list MidiDevice) (s : State) : State :=
  mkState (input_devices s) (output_devices s) (last_wiring s) h (next_handle s) (log s).
Definition set_next_handle (n : handle) (s : State) : State :=
  mkState (input_devices s) (output_devices s) (last_wiring s) (heap s) n (log s).
Definition set_log (l : list Event) (s : State) : State :=
  mkState (input_devices s) (output_devices s) (last_wiring s) (heap s) (next_handle s) l.

Definition with_input (i : option handle) (d : MidiDevice) : MidiDevice :=
  mkDevice (full_name d) (port d) i (output d) (forwards d).
Definition with_output (o : option handle) (d : MidiDevice) : MidiDevice :=
  mkDevice (full_name d) (port d) (input d) o (forwards d).
Definition add_forward (f : ref * channel_spec) (d : MidiDevice) : MidiDevice :=
  mkDevice (full_name d) (port d) (input d) (output d) (forwards d ++ [f]).

(** A device with nothing open, as [MidiDevice.__init__] builds it. *)
Definition new_device (name : string) (portnum : nat) : MidiDevice :=
  mkDevice name portnum None None [].

(** Reading an object through its address.  Addresses handed out by [alloc]
    are always in the store; the default is never read from them. *)
Definition deref (r : ref) : M MidiDevice :=
  gets (fun s => default (new_device "" 0) (heap s !! r)).
Definition update (r : ref) (f : MidiDevice -> MidiDevice) : M unit :=
  modify (fun s => set_heap (alter f r (heap s)) s).
Definition alloc (d : MidiDevice) : M ref :=
  fun s => (Ok (length (heap s)), set_heap (heap s ++ [d]) s).

(** Creating a driver object: [rtmidi.MidiIn()] or [rtmidi.MidiOut()]. *)
Definition new_handle : M handle :=
  fun s => (Ok (next_handle s), set_next_handle (S (next_handle s)) s).
Definition emit (e : Event) : M unit :=
  modify (fun s => set_log (log s ++ [e]) s).

(** ** [MidiDevice] methods *)

Definition prepare_for_output (self : ref) : M unit :=
  d <- deref self ;
  match output d with
  | None =>
      h <- new_handle ;
      update self (with_output (Some h)) ;;
      emit (EvOpenOut h (port d))
  | Some _ => ret tt
  end.

Definition send_message (self : ref) (message : list Z) : M unit :=
  d <- deref self ;
  match output d with
  | Some h => emit (EvSend h message)
  | None => raise AttributeError_none
  end.

Definition forward_messages (self output : ref) (channel : channel_spec) : M unit :=
  prepare_for_output output ;;
  h <- new_handle ;
  update self (with_input (Some h)) ;;
  d <- deref self ;
  emit (EvOpenIn h (port d)) ;;
  emit (EvSetCallback h self) ;;
  update self (add_forward (output, channel)).

Definition callback (self : ref) (message : list Z) : M unit :=
  match message with
  | [] => raise IndexError_empty
  | b :: _ =>
      let midi_channel := Z.land b 15 in
      d <- deref self ;
      for_each (forwards d) (fun '(output, channel) =>
        if channel_eq channel (midi_channel + 1)
        then send_message output message
        else ret tt)
  end.

(** The three messages [close] and [panic] send. *)
Definition silence : list (list Z) :=
  [ [CONTROL_CHANGE; ALL_SOUND_OFF; 0%Z];
    [CONTROL_CHANGE; ALL_NOTES_OFF; 0%Z];
    [CONTROL_CHANGE; RESET_ALL_CONTROLLERS; 0%Z] ].

Definition close (self : ref) : M unit :=
  d <- deref self ;
  match input d with
  | Some h => emit (EvCloseIn h) ;; update self (with_input None)
  | None => ret tt
  end ;;
  d <- deref self ;
  match output d with
  | Some h =>
      emit (EvSend h [CONTROL_CHANGE; ALL_SOUND_OFF; 0%Z]) ;;
      emit (EvSend h [CONTROL_CHANGE; ALL_NOTES_OFF; 0%Z]) ;;
      emit (EvSend h [CONTROL_CHANGE; RESET_ALL_CONTROLLERS; 0%Z]) ;;
      emit (EvCloseOut h) ;;
      update self (with_output None)
  | None => ret tt
  end.

(** ** [Station] methods *)

Definition reset : M unit :=
  ins <- gets input_devices ;
  for_each ins close ;;
  modify (set_input_devices []) ;;
  outs <- gets output_devices ;
  for_each outs close ;;
  modify (set_output_devices []).

(** [enumerate(l)] *)
Definition enumerate {A} (l : list A) : list (nat * A) := imap (fun i x => (i, x)) l.

Definition panic (env : Ports) : M unit :=
  midi_out <- new_handle ;
  for_each (enumerate (out_ports env)) (fun '(portnum, portname) =>
    emit (EvOpenOut midi_out portnum) ;;
    emit (EvSend midi_out [CONTROL_CHANGE; ALL_SOUND_OFF; 0%Z]) ;;
    emit (EvSend midi_out [CONTROL_CHANGE; ALL_NOTES_OFF; 0%Z]) ;;
    emit (EvSend midi_out [CONTROL_CHANGE; RESET_ALL_CONTROLLERS; 0%Z]) ;;
    emit (EvCloseOut midi_out)).

(** The generator of [__discover_devices]: one fresh [MidiDevice] per
    enumerated port. *)
Fixpoint make_devices (l : list (nat * string)) : M (list ref) :=
  match l with
  | [] => ret []
  | (portnum, name) :: l' =>
      r <- alloc (new_device name portnum) ;
      rs <- make_devices l' ;
      ret (r :: rs)
  end.

Definition discover_devices (names : list string) : M (list ref) :=
  midi <- new_handle ;
  make_devices (enumerate names).

Definition discover_input_devices (env : Ports) : M (list ref) :=
  discover_devices (in_ports env).
Definition discover_output_devices (env : Ports) : M (list ref) :=
  discover_devices (out_ports env).

(** The loop of [__find_matching_device], [device] being its local variable. *)
Fixpoint find_loop (spec : user_spec) (device_list : list ref) (device : option ref)
  : M (option ref) :=
  match device_list with
  | [] => ret device
  | potential_device :: rest =>
      d <- deref potential_device ;
      if matches d spec then
        match device with
        | None => find_loop spec rest (Some potential_device)
        | Some _ => raise (Exception_more_than_one spec)
        end
      else find_loop spec rest device
  end.

Definition find_matching_device (spec : user_spec) (device_list : list ref)
  : M (option ref) :=
  find_loop spec device_list None.

Definition wire_entry : Type := ref * ref * channel_spec.

(** The first loop of [wire], [wire_list] being its local variable. *)
Fixpoint resolve_rules (wiring : Wiring) (input_device_list output_device_list : list ref)
    (wire_list : list wire_entry) : M (list wire_entry) :=
  match wiring with
  | [] => ret wire_list
  | (input_spec, channel, output_spec) :: rest =>
      input_device <- find_matching_device input_spec input_device_list ;
      output_device <- find_matching_device output_spec output_device_list ;
      match input_device with
      | None => emit (EvStderr (NoInputMatching input_spec))
      | Some _ => ret tt
      end ;;
      match output_device with
      | None => emit (EvStderr (NoOutputMatching output_spec))
      | Some _ => ret tt
      end ;;
      match input_device, output_device with
      | Some in_d, Some out_d =>
          resolve_rules rest input_device_list output_device_list
            (wire_list ++ [(in_d, out_d, channel)])
      | _, _ =>
          emit (EvStderr Skipping) ;;
          resolve_rules rest input_device_list output_device_list wire_list
      end
  end.

(** The body of the second loop of [wire]. *)
Definition register (e : wire_entry) : M unit :=
  let '(in_d, out_d, chan) := e in
  modify (fun s => set_input_devices (input_devices s ++ [in_d]) s) ;;
  modify (fun s => set_output_devices (output_devices s ++ [out_d]) s) ;;
  forward_messages in_d out_d chan.

Definition wire (wiring : Wiring) (env : Ports) : M unit :=
  modify (set_last_wiring (Some wiring)) ;;
  input_device_list <- discover_input_devices env ;
  output_device_list <- discover_output_devices env ;
  wire_list <- resolve_rules wiring input_device_list output_device_list [] ;
  for_each wire_list register.

(** [rewire] never reads its parameter [wiring]. *)
Definition rewire (wiring : Wiring) (env : Ports) : M unit :=
  lw <- gets last_wiring ;
  match lw with
  | None => raise ValueError_no_wiring_set
  | Some last => reset ;; wire last env
  end.

(** ** Runs of a station

    The operations the outside world performs on a station: the four public
    methods, and the driver delivering a message to a device's callback. *)
Inductive op :=
| OpWire (wiring : Wiring) (env : Ports)
| OpReset
| OpPanic (env : Ports)
| OpRewire (wiring : Wiring) (env : Ports)
| OpReceive (self : ref) (message : list Z).

Definition run_op (o : op) : M unit :=
  match o with
  | OpWire wiring env => wire wiring env
  | OpReset => reset
  | OpPanic env => panic env
  | OpRewire wiring env => rewire wiring env
  | OpReceive self message => callback self message
  end.

(** A failed operation leaves the state it reached; the run goes on from it. *)
Fixpoint run (ops : list op) (s : State) : State :=
  match ops with
  | [] => s
  | o :: ops' => run ops' (snd (run_op o s))
  end.

Definition reachable (s : State) : Prop := exists ops, s = run ops init.

(** The argument of the last [wire] call of a history, if there was one. *)
Fixpoint last_wire_of (ops : list op) (prev : option Wiring) : option Wiring :=
  match ops with
  | [] => prev
  | OpWire wiring _ :: ops' => last_wire_of ops' (Some wiring)
  | _ :: ops' => last_wire_of ops' prev
  end.

(** ** Observations *)

Definition lookup_dev (s : State) (r : ref) : MidiDevice :=
  default (new_device "" 0) (heap s !! r).

(** The [MidiOut] a device holds, if it holds one. *)
Definition open_output (s : State) (r : ref) : option handle :=
  match heap s !! r with
  | Some d => output d
  | None => None
  end.

Definition open_input (s : State) (r : ref) : option handle :=
  match heap s !! r with
  | Some d => input d
  | None => None
  end.

Definition routes_of (s : State) (r : ref) : list (ref * channel_spec) :=
  match heap s !! r with
  | Some d => forwards d
  | None => []
  end.

(** The channel filter as the specification words it, on the channel
    nibble: everything passes [AllChannels], nibble [c] passes the 1-based
    channel [n] when [n = c + 1]. *)
Definition chan_accepts (channel : channel_spec) (nibble : Z) : bool :=
  match channel with
  | AllChannels => true
  | IntChannel n => bool_decide (n = (nibble + 1)%Z)
  end.

(** The sends a message causes along a list of routes. *)
Definition forwarded (s : State) (message : list Z) (nibble : Z)
    (routes : list (ref * channel_spec)) : list Event :=
  flat_map (fun '(out, channel) =>
    if chan_accepts channel nibble then
      match open_output s out with
      | Some h => [EvSend h message]
      | None => []
      end
    else []) routes.

(** What closing a device tells the driver. *)
Definition close_events (d : MidiDevice) : list Event :=
  match input d with
  | Some h => [EvCloseIn h]
  | None => []
  end ++
  match output d with
  | Some h => map (EvSend h) silence ++ [EvCloseOut h]
  | None => []
  end.

Definition closed (d : MidiDevice) : MidiDevice :=
  with_output None (with_input None d).

(** Events on the output connection [h]. *)
Definition on_output (h : handle) (e : Event) : bool :=
  match e with
  | EvOpenOut h' _ | EvSend h' _ | EvCloseOut h' => Nat.eqb h h'
  | _ => false
  end.

Definition is_stderr (e : Event) : bool :=
  match e with
  | EvStderr _ => true
  | _ => false
  end.

(** ** Resolution of rules against port names *)

Definition name_matches (spec : user_spec) (name : string) : bool :=
  matches (new_device name 0) spec.

(** The ports, by number, whose name a specification matches. *)
Definition candidates (spec : user_spec) (names : list string) : list nat :=
  List.filter (fun i => name_matches spec (default "" (names !! i)))
              (seq 0 (length names)).

Definition ambiguous (env : Ports) (rule : wiring_rule) : Prop :=
  let '(input_spec, _, output_spec) := rule in
  2 <= length (candidates input_spec (in_ports env)) \/
  2 <= length (candidates output_spec (out_ports env)).

(** The input and output port a rule connects, when each side has exactly
    one candidate. *)
Definition resolved (env : Ports) (rule : wiring_rule) : option (nat * nat * channel_spec) :=
  let '(input_spec, channel, output_spec) := rule in
  match candidates input_spec (in_ports env), candidates output_spec (out_ports env) with
  | [i], [j] => Some (i, j, channel)
  | _, _ => None
  end.

(** What a rule with a side without candidates makes [wire] print. *)
Definition diagnostics (env : Ports) (rule : wiring_rule) : list diagnostic :=
  let '(input_spec, _, output_spec) := rule in
  let no_in := bool_decide (candidates input_spec (in_ports env) = []) in
  let no_out := bool_decide (candidates output_spec (out_ports env) = []) in
  (if no_in then [NoInputMatching input_spec] else []) ++
  (if no_out then [NoOutputMatching output_spec] else []) ++
  (if no_in || no_out then [Skipping] else []).

(** ** Well-formed states *)

Record wf (s : State) : Prop := mkWf {
  wf_outputs_open :
    forall r, r ∈ output_devices s -> is_Some (open_output s r);
  wf_handles_distinct :
    forall r1 r2 h, open_output s r1 = Some h -> open_output s r2 = Some h -> r1 = r2;
  wf_handles_bounded :
    forall r h, open_output s r = Some h -> h < next_handle s;
  wf_routes_active :
    forall r out channel,
      r ∈ input_devices s -> (out, channel) ∈ routes_of s r -> out ∈ output_devices s
}.

(** ** Closing a list of devices, as a function of the state *)

Definition close_step (s : State) (self : ref) : State :=
  set_log (log s ++ close_events (lookup_dev s self))
    (set_heap (alter closed self (heap s)) s).

Definition close_all (l : list ref) (s : State) : State :=
  fold_left close_step l s.

Fixpoint close_trace (l : list ref) (s : State) : list Event :=
  match l with
  | [] => []
  | r :: l' => close_events (lookup_dev s r) ++ close_trace l' (close_step s r)
  end.

Definition handles_distinct (s : State) : Prop :=
  forall r1 r2 h, open_output s r1 = Some h -> open_output s r2 = Some h -> r1 = r2.

(** What one open output connection sees when its device is closed. *)
Definition silence_and_close (h : handle) : list Event :=
  [ EvSend h [CONTROL_CHANGE; ALL_SOUND_OFF; 0%Z];
    EvSend h [CONTROL_CHANGE; ALL_NOTES_OFF; 0%Z];
    EvSend h [CONTROL_CHANGE; RESET_ALL_CONTROLLERS; 0%Z];
    EvCloseOut h ].

(** The state [reset] leaves. *)
Definition reset_state (s : State) : State :=
  set_output_devices []
    (close_all (output_devices s)
       (set_input_devices [] (close_all (input_devices s) s))).

(** What [panic] tells the driver through its one [MidiOut], [h]. *)
Definition panic_events (h : handle) (names : list string) : list Event :=
  flat_map (fun '(portnum, _) => EvOpenOut h portnum :: silence_and_close h)
           (enumerate names).

(** ** Resolution against the store *)

(** The devices of a list that match a specification. *)
Definition matching (s : State) (spec : user_spec) (l : list ref) : list ref :=
  List.filter (fun r => matches (lookup_dev s r) spec) l.

(** What [__find_matching_device] makes of the matching devices. *)
Definition resolution (spec : user_spec) (l : list ref) : result (option ref) :=
  match l with
  | [] => Ok None
  | [r] => Ok (Some r)
  | _ :: _ :: _ => Raise (Exception_more_than_one spec)
  end.

(** The devices [__discover_devices] builds for a list of port names. *)
Definition fresh_devices (names : list string) : list MidiDevice :=
  imap (fun i name => new_device name i) names.

(** The devices at addresses [base], [base + 1], ... carry these names. *)
Definition names_at (s : State) (base : nat) (names : list string) : Prop :=
  forall i name, names !! i = Some name ->
    exists d, heap s !! (base + i) = Some d /\ full_name d = name.

(** The entry [wire] keeps for a rule, over devices stored from [bi] (inputs)
    and [bo] (outputs). *)
Definition entry_at (bi bo : nat) (e : nat * nat * channel_spec) : wire_entry :=
  let '(i, j, channel) := e in (bi + i, bo + j, channel).

Definition entries (env : Ports) (bi bo : nat) (wiring : Wiring) : list wire_entry :=
  map (entry_at bi bo) (omap (resolved env) wiring).

(** ** Registration, as a function of the state *)

(** The state [prepare_for_output] leaves. *)
Definition prepared (self : ref) (s : State) : State :=
  match output (lookup_dev s self) with
  | Some _ => s
  | None =>
      set_log (log s ++ [EvOpenOut (next_handle s) (port (lookup_dev s self))])
        (set_heap (alter (with_output (Some (next_handle s))) self (heap s))
           (set_next_handle (S (next_handle s)) s))
  end.

(** The state the rest of [forward_messages] leaves. *)
Definition listening (self out : ref) (channel : channel_spec) (s : State) : State :=
  set_log (log s ++ [EvOpenIn (next_handle s) (port (lookup_dev s self));
                     EvSetCallback (next_handle s) self])
    (set_heap
       (alter (fun d => add_forward (out, channel) (with_input (Some (next_handle s)) d))
              self (heap s))
       (set_next_handle (S (next_handle s)) s)).

Definition registered (e : wire_entry) (s : State) : State :=
  let '(in_d, out_d, chan) := e in
  listening in_d out_d chan
    (prepared out_d
       (set_output_devices (output_devices s ++ [out_d])
          (set_input_devices (input_devices s ++ [in_d]) s))).

(** The second loop of [wire], as a function of the state. *)
Definition registered_all (l : list wire_entry) (s : State) : State :=
  fold_left (fun s e => registered e s) l s.

(** The routes a list of entries gives the input device [r]. *)
Definition routes_for (r : ref) (l : list wire_entry) : list (ref * channel_spec) :=
  map (fun e : wire_entry => (e.1.2, e.2))
      (List.filter (fun e : wire_entry => Nat.eqb e.1.1 r) l).

(** Every device an entry names is in the store. *)
Definition valid_entry (s : State) (e : wire_entry) : Prop :=
  is_Some (heap s !! e.1.1) /\ is_Some (heap s !! e.1.2).

(** The state of [wire] once both device lists are discovered. *)
Definition discovered (wiring : Wiring) (env : Ports) (s : State) : State :=
  set_heap (heap s ++ fresh_devices (in_ports env) ++ fresh_devices (out_ports env))
    (set_next_handle (S (S (next_handle s)))
       (set_last_wiring (Some wiring) s)).

(** The state a [wire] call without ambiguous rule leaves: the discovered
    devices, the diagnostics of the skipped rules, and the routes of the
    resolved ones registered in the order of the rules. *)
Definition wired (wiring : Wiring) (env : Ports) (s : State) : State :=
  registered_all
    (entries env (length (heap s)) (length (heap s) + length (in_ports env)) wiring)
    (set_log (log s ++ map EvStderr (flat_map (diagnostics env) wiring))
       (discovered wiring env s)).

(** ** Statements the code is checked against *)

(** "A failed [wire] leaves the remembered wiring as it was." *)
Definition failed_wire_keeps_last_wiring : Prop :=
  forall (wiring : Wiring) (env : Ports) (s : State) (e : exn),
    fst (wire wiring env s) = Raise e ->
    last_wiring (snd (wire wiring env s)) = last_wiring s.

(** "When the first ambiguous rule stops [wire], the rules before it have
    their routes registered": the active devices are those that wiring the
    earlier rules alone gives. *)
Definition ambiguous_keeps_earlier_routes : Prop :=
  forall (pre : Wiring) (rule : wiring_rule) (post : Wiring) (env : Ports) (s : State),
    Forall (fun r => ~ ambiguous env r) pre ->
    ambiguous env rule ->
    input_devices (snd (wire (pre ++ rule :: post) env s)) =
      input_devices (snd (wire pre env s)) /\
    output_devices (snd (wire (pre ++ rule :: post) env s)) =
      output_devices (snd (wire pre env s)).

(** "In every wiring with a rule of which one side matches no candidate,
    every rule that resolves uniquely still gets its route." *)
Definition unmatched_rule_skipped_alone : Prop :=
  forall (wiring : Wiring) (env : Ports) (s : State) (unmatched rule : wiring_rule)
         (i j : nat) (channel : channel_spec),
    unmatched ∈ wiring ->
    candidates unmatched.1.1 (in_ports env) = [] \/
      candidates unmatched.2 (out_ports env) = [] ->
    rule ∈ wiring ->
    resolved env rule = Some (i, j, channel) ->
    (length (heap s) + length (in_ports env) + j, channel)
      ∈ routes_of (snd (wire wiring env s)) (length (heap s) + i).

(** ** A small rig, for examples *)

Definition rig : Ports := mkPorts ["kbd"; "pad"] ["synth"; "looper in"].

Definition rig_wiring : Wiring :=
  [ (StrSpec "kbd", AllChannels, StrSpec "synth");
    (StrSpec "KBD", IntChannel 1, StrSpec "looper");
    (StrSpec "pad", IntChannel 2, ExactMatch "synth") ].

Definition rig_wired : State := run [OpWire rig_wiring rig] init.

(** A rig with two pads, which the specification "pad" cannot tell apart. *)
Definition two_pads : Ports := mkPorts ["kbd"; "padA"; "padB"] ["out1"].

Definition kbd_rule : wiring_rule := (StrSpec "kbd", AllChannels, StrSpec "out1").
Definition pad_rule : wiring_rule := (StrSpec "pad", AllChannels, StrSpec "out1").
Definition ghost_rule : wiring_rule := (StrSpec "ghost", AllChannels, StrSpec "out1").

(** The first and third rules of the wiring the module itself configures:
    one keyboard forwarded to two outputs. *)
Definition lpk25_ports : Ports := mkPorts ["LPK25 MIDI 1"] ["Model D MIDI 1"; "Looper In"].

Definition lpk25_wiring : Wiring :=
  [ (StrSpec "lpk25", AllChannels, StrSpec "model d");
    (StrSpec "lpk25", AllChannels, StrSpec "looper in") ].

(** Every active input device listens and has a route; the two active lists
    grow together. *)
Definition inputs_listening (s : State) : Prop :=
  (forall r, r ∈ input_devices s -> is_Some (open_input s r) /\ routes_of s r <> []) /\
  length (input_devices s) = length (output_devices s).

(** The specification an ambiguous rule makes [wire] complain about: the
    input side is resolved first. *)
Definition ambiguous_spec (env : Ports) (rule : wiring_rule) : user_spec :=
  let '(input_spec, _, output_spec) := rule in
  if decide (2 <= length (candidates input_spec (in_ports env)))
  then input_spec else output_spec.

(** ** What registration tells the driver *)

Definition prepare_events (self : ref) (s : State) : list Event :=
  match output (lookup_dev s self) with
  | Some _ => []
  | None => [EvOpenOut (next_handle s) (port (lookup_dev s self))]
  end.

Definition register_events (e : wire_entry) (s : State) : list Event :=
  let '(in_d, out_d, chan) := e in
  prepare_events out_d s ++
  [ EvOpenIn (next_handle (prepared out_d s)) (port (lookup_dev s in_d));
    EvSetCallback (next_handle (prepared out_d s)) in_d ].

Fixpoint register_trace (l : list wire_entry) (s : State) : list Event :=
  match l with
  | [] => []
  | e :: l' => register_events e s ++ register_trace l' (registered e s)
  end.

Definition is_open_in (e : Event) : bool :=
  match e with
  | EvOpenIn _ _ => true
  | _ => false
  end.

(** "The callback of every device with registered routes, active or not,
    forwards the message along its matching routes." *)
Definition callback_forwards_on_every_routed_device : Prop :=
  forall (s : State) (self : ref) (b : Z) (rest : list Z),
    reachable s ->
    routes_of s self <> [] ->
    callback self (b :: rest) s =
      (Ok tt,
       set_log (log s ++ forwarded s (b :: rest) (Z.land b 15) (routes_of s self)) s) /\
    (forall out channel,
        (out, channel) ∈ routes_of s self -> is_Some (open_output s out)).

(** * Properties *)

(** ** Name matching *)

Lemma append_nil (s : string) : String.append EmptyString s = s.
Proof. reflexivity. Qed.

Lemma append_cons (c : ascii) (s t : string) :
  String.append (String c s) t = String c (String.append s t).
Proof. reflexivity. Qed.

Lemma starts_with_spec (needle hay : string) :
  starts_with needle hay = true <-> exists post, hay = String.append needle post.
Proof.
  revert hay. induction needle as [|a n IH]; intros hay; simpl.
  - split; [intros _; exists hay; reflexivity | reflexivity].
  - destruct hay as [|b h].
    + split; [discriminate | intros [post H]; discriminate].
    + setoid_rewrite append_cons.
      destruct (Ascii.eqb_spec a b) as [->|Hab].
      * rewrite IH. split; intros [post H]; exists post; congruence.
      * split; [discriminate | intros [post H]; congruence].
Qed.

Lemma str_in_spec (needle hay : string) :
  str_in needle hay = true <->
  exists pre post, hay = String.append pre (String.append needle post).
Proof.
  induction hay as [|b h IH]; simpl; rewrite orb_true_iff, starts_with_spec.
  - split.
    + intros [[post H]|H]; [|discriminate]. exists EmptyString, post. exact H.
    + intros [pre [post H]]. left.
      destruct pre; [rewrite append_nil in H; eauto | discriminate].
  - rewrite IH. split.
    + intros [[post H]|[pre [post H]]].
      * exists EmptyString, post. exact H.
      * exists (String b pre), post. rewrite append_cons. congruence.
    + intros [[|c pre] [post H]].
      * left. rewrite append_nil in H. eauto.
      * right. rewrite append_cons in H. exists pre, post. congruence.
Qed.

(** *** Lower-casing, character by character *)

Lemma is_upper_spec (c : ascii) :
  is_upper c = true <-> 65 <= nat_of_ascii c <= 90.
Proof.
  unfold is_upper. rewrite andb_true_iff, !Nat.leb_le. reflexivity.
Qed.

Lemma nat_of_ascii_lt (c : ascii) : nat_of_ascii c < 256.
Proof. apply nat_ascii_bounded. Qed.

Lemma nat_of_lower_ascii (c : ascii) :
  nat_of_ascii (lower_ascii c) =
  if is_upper c then nat_of_ascii c + 32 else nat_of_ascii c.
Proof.
  unfold lower_ascii. destruct (is_upper c) eqn:E; [|reflexivity].
  apply is_upper_spec in E. apply nat_ascii_embedding. lia.
Qed.

Lemma nat_of_ascii_inj (a b : ascii) : nat_of_ascii a = nat_of_ascii b -> a = b.
Proof.
  intros H. rewrite <- (ascii_nat_embedding a), <- (ascii_nat_embedding b), H.
  reflexivity.
Qed.

Lemma lower_ascii_same_letter (a b : ascii) :
  lower_ascii a = lower_ascii b <-> same_letter a b.
Proof.
  unfold same_letter. split.
  - intros H. apply (f_equal nat_of_ascii) in H. rewrite !nat_of_lower_ascii in H.
    destruct (is_upper a) eqn:Ea, (is_upper b) eqn:Eb.
    + left. apply nat_of_ascii_inj. lia.
    + right. left. split; [reflexivity|]. lia.
    + right. right. split; [reflexivity|]. lia.
    + left. apply nat_of_ascii_inj. exact H.
  - intros H. apply nat_of_ascii_inj. rewrite !nat_of_lower_ascii.
    destruct H as [->|[[Ha Hb]|[Hb Ha]]]; [reflexivity| |].
    + rewrite Ha. apply is_upper_spec in Ha.
      destruct (is_upper b) eqn:Eb; [apply is_upper_spec in Eb; lia|lia].
    + rewrite Hb. apply is_upper_spec in Hb.
      destruct (is_upper a) eqn:Ea; [apply is_upper_spec in Ea; lia|lia].
Qed.

Lemma lower_same_up_to_case (s t : string) :
  lower s = lower t <-> same_up_to_case s t.
Proof.
  split.
  - revert t. induction s as [|a s IH]; intros [|b t] H; simpl in H;
      try discriminate; [constructor|].
    injection H as Hc Hs. constructor; [apply lower_ascii_same_letter, Hc|apply IH, Hs].
  - intros H. induction H as [|a b s t Hab _ IH]; [reflexivity|].
    simpl. apply lower_ascii_same_letter in Hab. rewrite Hab, IH. reflexivity.
Qed.

Lemma lower_app (x y : string) :
  lower (String.append x y) = String.append (lower x) (lower y).
Proof.
  induction x as [|c x IH]; [reflexivity|].
  rewrite append_cons. simpl. rewrite IH, append_cons. reflexivity.
Qed.

Lemma lower_split (d a b : string) :
  lower d = String.append a b ->
  exists d1 d2, d = String.append d1 d2 /\ lower d1 = a /\ lower d2 = b.
Proof.
  revert d. induction a as [|c a IH]; intros d H.
  - exists EmptyString, d. rewrite append_nil in H. auto.
  - rewrite append_cons in H. destruct d as [|c' d]; [discriminate|].
    simpl in H. injection H as Hc Hd.
    destruct (IH d Hd) as (d1 & d2 & -> & H1 & H2).
    exists (String c' d1), d2. rewrite append_cons. simpl. rewrite Hc, H1. auto.
Qed.

Lemma lower_ascii_not_upper (c : ascii) : is_upper (lower_ascii c) = false.
Proof.
  destruct (is_upper (lower_ascii c)) eqn:E; [|reflexivity].
  apply is_upper_spec in E. rewrite nat_of_lower_ascii in E.
  destruct (is_upper c) eqn:Ec; [apply is_upper_spec in Ec; lia|].
  apply is_upper_spec in E. congruence.
Qed.

Lemma no_upper_lower (s : string) : no_upper (lower s) = true.
Proof.
  induction s as [|c s IH]; [reflexivity|].
  simpl. rewrite lower_ascii_not_upper, IH. reflexivity.
Qed.

Lemma same_up_to_case_lower (s : string) : same_up_to_case (lower s) s.
Proof.
  induction s as [|c s IH]; [constructor|].
  simpl. constructor; [|exact IH].
  apply lower_ascii_same_letter.
  apply nat_of_ascii_inj. rewrite !nat_of_lower_ascii, lower_ascii_not_upper.
  reflexivity.
Qed.

Lemma is_ascii_lower (s : string) : is_ascii s = true -> is_ascii (lower s) = true.
Proof.
  induction s as [|c s IH]; [reflexivity|].
  simpl. rewrite !andb_true_iff, !Nat.ltb_lt. intros [Hc Hs].
  split; [|apply IH, Hs]. rewrite nat_of_lower_ascii.
  destruct (is_upper c) eqn:E; [apply is_upper_spec in E; lia|exact Hc].
Qed.

Lemma matches_up_to_case (self : MidiDevice) (S : string) :
  matches self (StrSpec S) = true <->
  exists pre mid post,
    full_name self = String.append pre (String.append mid post) /\
    same_up_to_case mid S.
Proof.
  simpl. rewrite str_in_spec. split.
  - intros (pre & post & H).
    apply lower_split in H. destruct H as (d1 & d2 & Hd & H1 & H2).
    apply lower_split in H2. destruct H2 as (d3 & d4 & -> & H3 & H4).
    exists d1, d3, d4. split; [exact Hd|]. apply lower_same_up_to_case, H3.
  - intros (pre & mid & post & -> & Hmid).
    apply lower_same_up_to_case in Hmid.
    exists (lower pre), (lower post). rewrite !lower_app, Hmid. reflexivity.
Qed.

(** C10: on ASCII text, a plain-string specification S matches a device
    named D exactly when the lower-cased D contains the lower-cased S as a
    substring, that is, exactly when D contains a stretch that is S up to
    the case of its letters; lower-casing leaves a text that is the same up
    to case and has no capital letter.  An [ExactMatch] specification S
    matches D exactly when S and D are the same string, character for
    character, without case folding. *)
Theorem matches_spec (self : MidiDevice) (S : string) :
  is_ascii S = true ->
  is_ascii (full_name self) = true ->
  (matches self (StrSpec S) = true <->
     exists pre post,
       lower (full_name self) = String.append pre (String.append (lower S) post)) /\
  (matches self (StrSpec S) = true <->
     exists pre mid post,
       full_name self = String.append pre (String.append mid post) /\
       same_up_to_case mid S) /\
  (same_up_to_case (lower S) S /\ no_upper (lower S) = true /\
   is_ascii (lower S) = true) /\
  (matches self (ExactMatch S) = true <-> S = full_name self).
Proof.
  intros HS HD. split; [|split; [|split]].
  - simpl. apply str_in_spec.
  - apply matches_up_to_case.
  - split; [apply same_up_to_case_lower|].
    split; [apply no_upper_lower|apply is_ascii_lower, HS].
  - simpl. apply String.eqb_eq.
Qed.

Lemma matches_spec_witness :
  is_ascii "BeatStep" = true /\
  is_ascii (full_name (new_device "Arturia BEATSTEP Pro MIDI 1" 0)) = true /\
  matches (new_device "Arturia BEATSTEP Pro MIDI 1" 0) (StrSpec "BeatStep") = true /\
  lower "BeatStep" = "beatstep" /\
  (matches (new_device "Arturia BEATSTEP Pro MIDI 1" 0) (ExactMatch "BeatStep") = true <->
   "BeatStep" = "Arturia BEATSTEP Pro MIDI 1").
Proof.
  assert (HS : is_ascii "BeatStep" = true) by (vm_compute; reflexivity).
  assert (HD : is_ascii (full_name (new_device "Arturia BEATSTEP Pro MIDI 1" 0)) = true)
    by (vm_compute; reflexivity).
  split; [exact HS|]. split; [exact HD|].
  destruct (matches_spec (new_device "Arturia BEATSTEP Pro MIDI 1" 0) "BeatStep" HS HD)
    as (_ & Hcase & _ & Hexact).
  split; [|split; [vm_compute; reflexivity|exact Hexact]].
  apply Hcase. exists "Arturia ", "BEATSTEP", " Pro MIDI 1".
  split; [reflexivity|]. apply lower_same_up_to_case. vm_compute. reflexivity.
Defined.

Example matches_substring_folds_case :
  matches (new_device "Arturia BeatStep Pro MIDI 1" 0) (StrSpec "beatstep") = true.
Proof. reflexivity. Qed.

Example matches_exact_keeps_case :
  matches (new_device "LPK25" 0) (ExactMatch "lpk25") = false /\
  matches (new_device "LPK25" 0) (ExactMatch "LPK25") = true /\
  matches (new_device "LPK25 MIDI 1" 0) (ExactMatch "LPK25") = false.
Proof. repeat split. Qed.

(** ** Running the monad *)

Ltac mrun :=
  unfold emit, update, deref, new_handle, alloc, gets, modify, bind, ret, raise;
  simpl.

Lemma state_eq (s t : State) :
  input_devices s = input_devices t ->
  output_devices s = output_devices t ->
  last_wiring s = last_wiring t ->
  heap s = heap t ->
  next_handle s = next_handle t ->
  log s = log t ->
  s = t.
Proof. destruct s, t; simpl; intros; congruence. Qed.

Lemma alter_absent {A} (f : A -> A) (i : nat) (l : list A) :
  l !! i = None -> alter f i l = l.
Proof.
  revert i. induction l as [|x l IH]; intros [|i] H; simpl in *;
    try reflexivity; try discriminate.
  f_equal. apply IH, H.
Qed.

Lemma for_each_app {A} (l1 l2 : list A) (body : A -> M unit) (s : State) :
  for_each (l1 ++ l2) body s = (for_each l1 body ;; for_each l2 body) s.
Proof.
  revert s. induction l1 as [|x l1 IH]; intros s; simpl.
  - reflexivity.
  - unfold bind in *. destruct (body x s) as [[[]|e] s1]; [apply IH|reflexivity].
Qed.

(** ** [close] *)

Lemma close_run (self : ref) (s : State) :
  close self s =
  (Ok tt, set_log (log s ++ close_events (lookup_dev s self))
            (set_heap (alter closed self (heap s)) s)).
Proof.
  unfold close, lookup_dev, close_events, closed, silence. mrun.
  destruct (heap s !! self) as [d|] eqn:E; mrun.
  - destruct (input d) as [hi|] eqn:Ei; mrun.
    + rewrite list_lookup_alter_eq, E. mrun. simpl.
      destruct (output d) as [ho|] eqn:Eo; mrun; f_equal; apply state_eq; mrun;
        try reflexivity.
      * rewrite list_alter_alter_eq. reflexivity.
      * rewrite <- !app_assoc. reflexivity.
      * apply list_alter_ext; [|reflexivity]. intros x Hx.
        assert (x = d) by congruence. subst x.
        unfold with_output, with_input. simpl. rewrite Eo. reflexivity.
    + rewrite E. simpl.
      destruct (output d) as [ho|] eqn:Eo; mrun; f_equal; apply state_eq; mrun;
        try reflexivity.
      * apply list_alter_ext; [|reflexivity]. intros x Hx.
        assert (x = d) by congruence. subst x.
        unfold with_output, with_input. simpl. rewrite Ei. reflexivity.
      * rewrite <- !app_assoc. reflexivity.
      * rewrite <- (list_alter_id id (heap s) self) at 1 by reflexivity.
        apply list_alter_ext; [|reflexivity]. intros x Hx.
        assert (x = d) by congruence. subst x. destruct d; simpl in *.
        subst. reflexivity.
      * rewrite app_nil_r. reflexivity.
  - rewrite E. simpl. f_equal. apply state_eq; simpl; try reflexivity.
    + symmetry. apply alter_absent, E.
    + rewrite app_nil_r. reflexivity.
Qed.

Lemma close_all_cons (r : ref) (l : list ref) (s : State) :
  close_all (r :: l) s = close_all l (close_step s r).
Proof. reflexivity. Qed.

Lemma for_each_close (l : list ref) (s : State) :
  for_each l close s = (Ok tt, close_all l s).
Proof.
  revert s. induction l as [|r l IH]; intros s.
  - reflexivity.
  - rewrite close_all_cons, <- IH. simpl. unfold bind. rewrite close_run. reflexivity.
Qed.

Lemma close_all_log (l : list ref) (s : State) :
  log (close_all l s) = log s ++ close_trace l s.
Proof.
  revert s. induction l as [|r l IH]; intros s.
  - simpl. rewrite app_nil_r. reflexivity.
  - rewrite close_all_cons, IH. simpl. rewrite <- app_assoc. reflexivity.
Qed.

Lemma close_all_station (l : list ref) (s : State) :
  input_devices (close_all l s) = input_devices s /\
  output_devices (close_all l s) = output_devices s /\
  last_wiring (close_all l s) = last_wiring s /\
  next_handle (close_all l s) = next_handle s.
Proof.
  revert s. induction l as [|r l IH]; intros s.
  - repeat split.
  - rewrite close_all_cons. destruct (IH (close_step s r)) as (H1 & H2 & H3 & H4).
    rewrite H1, H2, H3, H4. repeat split.
Qed.

Lemma open_output_close_step (s : State) (self r : ref) :
  open_output (close_step s self) r =
  if decide (self = r) then None else open_output s r.
Proof.
  unfold open_output, close_step. simpl. rewrite list_lookup_alter.
  destruct (decide (self = r)) as [->|Hne]; [|reflexivity].
  destruct (heap s !! r); reflexivity.
Qed.

Lemma open_output_close_all (l : list ref) (s : State) (r : ref) :
  open_output (close_all l s) r =
  if decide (r ∈ l) then None else open_output s r.
Proof.
  revert s. induction l as [|x l IH]; intros s.
  - destruct (decide (r ∈ [])) as [H|H]; [inversion H|reflexivity].
  - rewrite close_all_cons, IH, open_output_close_step.
    destruct (decide (r ∈ l)) as [Hin|Hin].
    + rewrite decide_True by (right; exact Hin). reflexivity.
    + destruct (decide (x = r)) as [->|Hne].
      * rewrite decide_True by left. reflexivity.
      * rewrite decide_False; [reflexivity|].
        intros H. apply elem_of_cons in H. destruct H; congruence.
Qed.

Lemma handles_distinct_close_step (s : State) (self : ref) :
  handles_distinct s -> handles_distinct (close_step s self).
Proof.
  intros Hd r1 r2 h. rewrite !open_output_close_step.
  destruct (decide (self = r1)); [discriminate|].
  destruct (decide (self = r2)); [discriminate|]. apply Hd.
Qed.

Lemma close_events_output (s : State) (r : ref) (h : handle) :
  List.filter (on_output h) (close_events (lookup_dev s r)) =
  if decide (open_output s r = Some h) then silence_and_close h else [].
Proof.
  unfold close_events, lookup_dev, open_output.
  destruct (heap s !! r) as [d|]; simpl.
  - rewrite List.filter_app.
    replace (List.filter (on_output h)
               match input d with Some h0 => [EvCloseIn h0] | None => [] end)
      with (@nil Event) by (destruct (input d); reflexivity).
    destruct (output d) as [ho|]; simpl.
    + destruct (Nat.eqb_spec h ho) as [->|Hne]; try case_decide;
        solve [reflexivity | congruence].
    + try case_decide; solve [reflexivity | discriminate].
  - try case_decide; solve [reflexivity | discriminate].
Qed.

Lemma close_trace_unused (l : list ref) (s : State) (h : handle) :
  (forall r, open_output s r <> Some h) ->
  List.filter (on_output h) (close_trace l s) = [].
Proof.
  revert s. induction l as [|x l IH]; intros s Hno; simpl; [reflexivity|].
  rewrite List.filter_app, close_events_output.
  rewrite decide_False by apply Hno. simpl. apply IH.
  intros r. rewrite open_output_close_step.
  destruct (decide (x = r)); [discriminate|apply Hno].
Qed.

Lemma close_trace_once (l : list ref) (s : State) (r : ref) (h : handle) :
  handles_distinct s ->
  open_output s r = Some h ->
  r ∈ l ->
  List.filter (on_output h) (close_trace l s) = silence_and_close h.
Proof.
  revert s. induction l as [|x l IH]; intros s Hd Hr Hin; [inversion Hin|].
  simpl. rewrite List.filter_app, close_events_output.
  destruct (decide (open_output s x = Some h)) as [Hx|Hx].
  - rewrite close_trace_unused; [apply app_nil_r|].
    intros r' H'. rewrite open_output_close_step in H'.
    destruct (decide (x = r')) as [|Hne]; [discriminate|].
    apply Hne. eapply Hd; eassumption.
  - simpl. apply IH.
    + apply handles_distinct_close_step, Hd.
    + rewrite open_output_close_step.
      rewrite decide_False; [exact Hr|]. intros ->. contradiction.
    + apply elem_of_cons in Hin. destruct Hin as [->|Hin]; [contradiction|exact Hin].
Qed.

(** ** [reset] *)

Lemma reset_run (s : State) : reset s = (Ok tt, reset_state s).
Proof.
  unfold reset, reset_state. mrun.
  rewrite for_each_close. simpl.
  rewrite for_each_close.
  destruct (close_all_station (input_devices s) s) as (_ & -> & _).
  reflexivity.
Qed.

(** ** [panic] *)

Lemma panic_loop (h : handle) (l : list (nat * string)) (s : State) :
  for_each l (fun '(portnum, portname) =>
    emit (EvOpenOut h portnum) ;;
    emit (EvSend h [CONTROL_CHANGE; ALL_SOUND_OFF; 0%Z]) ;;
    emit (EvSend h [CONTROL_CHANGE; ALL_NOTES_OFF; 0%Z]) ;;
    emit (EvSend h [CONTROL_CHANGE; RESET_ALL_CONTROLLERS; 0%Z]) ;;
    emit (EvCloseOut h)) s =
  (Ok tt, set_log (log s ++ flat_map (fun '(portnum, _) =>
                     EvOpenOut h portnum :: silence_and_close h) l) s).
Proof.
  revert s. induction l as [|[portnum portname] l IH]; intros s.
  - simpl. unfold ret. f_equal. apply state_eq; simpl; try reflexivity.
    rewrite app_nil_r. reflexivity.
  - cbn [for_each flat_map]. unfold bind at 1. mrun. 
    unfold bind in IH. rewrite IH. f_equal. apply state_eq; simpl; try reflexivity.
    rewrite <- !app_assoc. reflexivity.
Qed.

Lemma panic_run (env : Ports) (s : State) :
  panic env s =
  (Ok tt, set_log (log s ++ panic_events (next_handle s) (out_ports env))
            (set_next_handle (S (next_handle s)) s)).
Proof.
  unfold panic, panic_events. unfold bind at 1. unfold new_handle.
  rewrite panic_loop. reflexivity.
Qed.

(** ** [callback] *)

Lemma channel_eq_accepts (channel : channel_spec) (nibble : Z) :
  channel_eq channel (nibble + 1) = chan_accepts channel nibble.
Proof.
  destruct channel as [|n]; simpl; [reflexivity|].
  destruct (Z.eqb_spec n (nibble + 1)) as [H|H].
  - rewrite bool_decide_eq_true_2; auto.
  - rewrite bool_decide_eq_false_2; auto.
Qed.

Lemma forwarded_set_log (l : list Event) (s : State) message nibble routes :
  forwarded (set_log l s) message nibble routes = forwarded s message nibble routes.
Proof. reflexivity. Qed.

Lemma callback_loop (routes : list (ref * channel_spec)) (message : list Z)
    (nibble : Z) (s : State) :
  (forall out channel,
      (out, channel) ∈ routes -> chan_accepts channel nibble = true ->
      is_Some (open_output s out)) ->
  for_each routes (fun '(output, channel) =>
    if channel_eq channel (nibble + 1)
    then send_message output message
    else ret tt) s =
  (Ok tt, set_log (log s ++ forwarded s message nibble routes) s).
Proof.
  revert s. induction routes as [|[out channel] routes IH]; intros s Hopen.
  - simpl. unfold ret. f_equal. apply state_eq; simpl; try reflexivity.
    rewrite app_nil_r. reflexivity.
  - cbn [for_each]. unfold bind. rewrite channel_eq_accepts.
    unfold forwarded. cbn [flat_map]. fold (forwarded s message nibble routes).
    destruct (chan_accepts channel nibble) eqn:Hacc.
    + destruct (Hopen out channel) as [h Hh]; [left|exact Hacc|].
      unfold send_message. mrun. unfold open_output in Hh |- *.
      destruct (heap s !! out) as [d|]; [|discriminate]. simpl in *. rewrite Hh.
      rewrite IH.
      * f_equal. apply state_eq; simpl; try reflexivity.
        rewrite forwarded_set_log, <- app_assoc. reflexivity.
      * intros o c Hin Hc. apply (Hopen o c); [right; exact Hin|exact Hc].
    + unfold ret. rewrite IH; [reflexivity|].
      intros o c Hin Hc. apply (Hopen o c); [right; exact Hin|exact Hc].
Qed.

Lemma callback_run (self : ref) (b : Z) (rest : list Z) (s : State) :
  (forall out channel,
      (out, channel) ∈ routes_of s self -> chan_accepts channel (Z.land b 15) = true ->
      is_Some (open_output s out)) ->
  callback self (b :: rest) s =
  (Ok tt, set_log (log s ++ forwarded s (b :: rest) (Z.land b 15) (routes_of s self)) s).
Proof.
  intros Hopen. unfold callback. unfold bind, deref, gets.
  rewrite callback_loop.
  - unfold routes_of. destruct (heap s !! self); reflexivity.
  - unfold routes_of in Hopen. destruct (heap s !! self); [exact Hopen|].
    simpl. intros o c H. inversion H.
Qed.

(** ** Discovery *)

Lemma make_devices_run (names : list string) (k : nat) (s : State) :
  make_devices (imap (fun i x => (k + i, x)) names) s =
  (Ok (seq (length (heap s)) (length names)),
   set_heap (heap s ++ imap (fun i name => new_device name (k + i)) names) s).
Proof.
  revert k s. induction names as [|x names IH]; intros k s.
  - simpl. unfold ret. f_equal. apply state_eq; simpl; try reflexivity.
    rewrite app_nil_r. reflexivity.
  - rewrite !imap_cons. cbn [make_devices]. unfold bind at 1. unfold alloc.
    unfold bind at 1.
    rewrite (imap_ext _ (fun i x => (S k + i, x))) by (intros; simpl; f_equal; lia).
    rewrite IH. unfold ret. simpl. rewrite length_app. simpl.
    rewrite Nat.add_0_r, Nat.add_1_r. f_equal. apply state_eq; simpl; try reflexivity.
    rewrite <- app_assoc. simpl. do 2 f_equal.
    apply imap_ext. intros. simpl. f_equal. lia.
Qed.

Lemma discover_devices_run (names : list string) (s : State) :
  discover_devices names s =
  (Ok (seq (length (heap s)) (length names)),
   set_heap (heap s ++ fresh_devices names) (set_next_handle (S (next_handle s)) s)).
Proof.
  unfold discover_devices, enumerate, fresh_devices. unfold bind, new_handle.
  apply (make_devices_run names 0 (set_next_handle (S (next_handle s)) s)).
Qed.

(** ** [__find_matching_device] *)

Lemma find_loop_run (spec : user_spec) (l : list ref) (device : option ref) (s : State) :
  find_loop spec l device s =
  (match device with
   | None => resolution spec (matching s spec l)
   | Some a =>
       match matching s spec l with
       | [] => Ok (Some a)
       | _ :: _ => Raise (Exception_more_than_one spec)
       end
   end, s).
Proof.
  revert device. induction l as [|r l IH]; intros device.
  - destruct device; reflexivity.
  - cbn [find_loop]. unfold bind, deref, gets. fold (lookup_dev s r).
    unfold matching. cbn [List.filter]. fold (matching s spec l).
    destruct (matches (lookup_dev s r) spec).
    + destruct device as [a|]; [reflexivity|].
      rewrite IH. unfold resolution. destruct (matching s spec l); reflexivity.
    + apply IH.
Qed.

Lemma find_matching_device_run (spec : user_spec) (l : list ref) (s : State) :
  find_matching_device spec l s = (resolution spec (matching s spec l), s).
Proof. apply find_loop_run. Qed.

Lemma find_matching_device_unambiguous (spec : user_spec) (device_list : list ref)
    (s : State) :
  length (matching s spec device_list) < 2 ->
  exists found, find_matching_device spec device_list s = (Ok found, s).
Proof.
  rewrite find_matching_device_run. unfold resolution.
  destruct (matching s spec device_list) as [|r [|r' l]]; simpl; intros H;
    try lia; eauto.
Qed.

(** C5: resolving a specification against a list of candidate devices of
    which more than one matches raises the "More than one devices match"
    exception (the specification's AmbiguousSpec), naming that
    specification. *)
Theorem find_matching_device_ambiguous (spec : user_spec) (device_list : list ref)
    (s : State) :
  2 <= length (matching s spec device_list) ->
  find_matching_device spec device_list s = (Raise (Exception_more_than_one spec), s).
Proof.
  rewrite find_matching_device_run. unfold resolution.
  destruct (matching s spec device_list) as [|r [|r' l]]; simpl; intros H;
    try lia; reflexivity.
Qed.

Lemma find_matching_device_ambiguous_witness :
  2 <= length (matching (snd (discover_devices ["padA"; "padB"] init))
                 (StrSpec "pad") [0; 1]) /\
  find_matching_device (StrSpec "pad") [0; 1]
    (snd (discover_devices ["padA"; "padB"] init)) =
  (Raise (Exception_more_than_one (StrSpec "pad")),
   snd (discover_devices ["padA"; "padB"] init)).
Proof.
  assert (H : 2 <= length (matching (snd (discover_devices ["padA"; "padB"] init))
                             (StrSpec "pad") [0; 1])) by (vm_compute; lia).
  split; [exact H|].
  exact (find_matching_device_ambiguous (StrSpec "pad") [0; 1]
           (snd (discover_devices ["padA"; "padB"] init)) H).
Defined.

(** The same inside [wire]: two pads for the one specification "pad". *)
Example wire_two_pads :
  fst (wire [(StrSpec "pad", AllChannels, StrSpec "synth")]
            (mkPorts ["padA"; "padB"] ["synth"]) init) =
  Raise (Exception_more_than_one (StrSpec "pad")).
Proof. vm_compute. reflexivity. Qed.

(** ** Resolution of the rules of a wiring *)

Lemma matches_name (d : MidiDevice) (spec : user_spec) :
  matches d spec = name_matches spec (full_name d).
Proof. destruct spec; reflexivity. Qed.

Lemma filter_seq_shift (P Q : nat -> bool) (base k n : nat) :
  (forall i, k <= i < k + n -> P (base + i) = Q i) ->
  List.filter P (seq (base + k) n) = map (Nat.add base) (List.filter Q (seq k n)).
Proof.
  revert k. induction n as [|n IH]; intros k H; [reflexivity|].
  simpl. rewrite H by lia. replace (S (base + k)) with (base + S k) by lia.
  rewrite IH by (intros; apply H; lia).
  destruct (Q k); reflexivity.
Qed.

Lemma matching_names (s : State) (spec : user_spec) (base : nat) (names : list string) :
  names_at s base names ->
  matching s spec (seq base (length names)) = map (Nat.add base) (candidates spec names).
Proof.
  intros Hn. unfold matching, candidates.
  rewrite <- (Nat.add_0_r base) at 1. apply filter_seq_shift.
  intros i Hi. rewrite matches_name. f_equal.
  destruct (lookup_lt_is_Some_2 names i) as [name Hname]; [lia|].
  destruct (Hn i name Hname) as (d & Hd & Hf).
  unfold lookup_dev. rewrite Hd, Hname. exact Hf.
Qed.

Lemma names_at_set_log (l : list Event) (s : State) (base : nat) (names : list string) :
  names_at (set_log l s) base names <-> names_at s base names.
Proof. reflexivity. Qed.

Lemma entries_cons (env : Ports) (bi bo : nat) (rule : wiring_rule) (rest : Wiring) :
  entries env bi bo (rule :: rest) =
  match resolved env rule with
  | Some e => [entry_at bi bo e]
  | None => []
  end ++ entries env bi bo rest.
Proof. unfold entries. simpl. destruct (resolved env rule); reflexivity. Qed.

Lemma resolve_rules_step (env : Ports) (bi bo : nat) (rule : wiring_rule)
    (rest : Wiring) (acc : list wire_entry) (s : State) :
  names_at s bi (in_ports env) ->
  names_at s bo (out_ports env) ->
  ~ ambiguous env rule ->
  resolve_rules (rule :: rest) (seq bi (length (in_ports env)))
    (seq bo (length (out_ports env))) acc s =
  resolve_rules rest (seq bi (length (in_ports env)))
    (seq bo (length (out_ports env)))
    (acc ++ entries env bi bo [rule])
    (set_log (log s ++ map EvStderr (diagnostics env rule)) s).
Proof.
  intros Hi Ho Hamb. destruct rule as [[input_spec channel] output_spec].
  cbn [resolve_rules]. unfold bind.
  rewrite find_matching_device_run, (matching_names _ _ _ _ Hi).
  rewrite entries_cons. unfold entries at 1. cbn [omap list_omap map].
  unfold diagnostics, resolved, ambiguous in *.
  destruct (candidates input_spec (in_ports env)) as [|i [|i' ci]];
    [| |simpl in Hamb; exfalso; apply Hamb; left; lia];
    cbn [map resolution];
    rewrite find_matching_device_run, (matching_names _ _ _ _ Ho);
    (destruct (candidates output_spec (out_ports env)) as [|j [|j' co]];
      [| |simpl in Hamb; exfalso; apply Hamb; right; lia]);
    mrun; f_equal; try (rewrite ?app_nil_r; reflexivity);
    apply state_eq; simpl; try reflexivity;
    rewrite <- ?app_assoc, ?app_nil_r; reflexivity.
Qed.

Lemma resolve_rules_ok (env : Ports) (bi bo : nat) (wiring : Wiring)
    (acc : list wire_entry) (s : State) :
  names_at s bi (in_ports env) ->
  names_at s bo (out_ports env) ->
  Forall (fun rule => ~ ambiguous env rule) wiring ->
  resolve_rules wiring (seq bi (length (in_ports env)))
    (seq bo (length (out_ports env))) acc s =
  (Ok (acc ++ entries env bi bo wiring),
   set_log (log s ++ map EvStderr (flat_map (diagnostics env) wiring)) s).
Proof.
  intros Hi Ho Hall. revert acc s Hi Ho.
  induction Hall as [|rule rest Hrule Hrest IH]; intros acc s Hi Ho.
  - simpl. unfold ret, entries. simpl. rewrite app_nil_r. f_equal.
    apply state_eq; simpl; try reflexivity. rewrite app_nil_r. reflexivity.
  - rewrite (resolve_rules_step env bi bo) by assumption.
    rewrite IH by assumption.
    rewrite (entries_cons env bi bo rule rest), (entries_cons env bi bo rule []).
    unfold entries at 1. cbn [omap list_omap map]. rewrite app_nil_r, <- app_assoc.
    f_equal. apply state_eq; simpl; try reflexivity.
    rewrite map_app, app_assoc. reflexivity.
Qed.

Lemma resolve_rules_ambiguous_head (env : Ports) (bi bo : nat) (rule : wiring_rule)
    (rest : Wiring) (acc : list wire_entry) (s : State) :
  names_at s bi (in_ports env) ->
  names_at s bo (out_ports env) ->
  ambiguous env rule ->
  exists spec,
    (spec = rule.1.1 \/ spec = rule.2) /\
    resolve_rules (rule :: rest) (seq bi (length (in_ports env)))
      (seq bo (length (out_ports env))) acc s =
    (Raise (Exception_more_than_one spec), s).
Proof.
  intros Hi Ho Hamb. destruct rule as [[input_spec channel] output_spec].
  cbn [resolve_rules]. unfold bind.
  rewrite find_matching_device_run, (matching_names _ _ _ _ Hi).
  unfold ambiguous in Hamb.
  destruct (candidates input_spec (in_ports env)) as [|i [|i' ci]];
    cbn [map resolution];
    try (exists input_spec; split; [left; reflexivity|reflexivity]);
    rewrite find_matching_device_run, (matching_names _ _ _ _ Ho);
    (destruct (candidates output_spec (out_ports env)) as [|j [|j' co]];
     [simpl in Hamb; exfalso; lia|simpl in Hamb; exfalso; lia|]);
    exists output_spec; (split; [right; reflexivity|reflexivity]).
Qed.

Lemma resolve_rules_raise (env : Ports) (bi bo : nat) (pre : Wiring)
    (rule : wiring_rule) (post : Wiring) (acc : list wire_entry) (s : State) :
  names_at s bi (in_ports env) ->
  names_at s bo (out_ports env) ->
  Forall (fun rule => ~ ambiguous env rule) pre ->
  ambiguous env rule ->
  exists spec,
    (spec = rule.1.1 \/ spec = rule.2) /\
    resolve_rules (pre ++ rule :: post) (seq bi (length (in_ports env)))
      (seq bo (length (out_ports env))) acc s =
    (Raise (Exception_more_than_one spec),
     set_log (log s ++ map EvStderr (flat_map (diagnostics env) pre)) s).
Proof.
  intros Hi Ho Hpre Hamb. revert acc s Hi Ho.
  induction Hpre as [|r pre Hr Hpre IH]; intros acc s Hi Ho.
  - destruct (resolve_rules_ambiguous_head env bi bo rule post acc s Hi Ho Hamb)
      as (spec & Hspec & Hrun).
    exists spec. split; [exact Hspec|]. rewrite app_nil_l, Hrun. f_equal.
    apply state_eq; simpl; try reflexivity. rewrite app_nil_r. reflexivity.
  - rewrite <- app_comm_cons, (resolve_rules_step env bi bo) by assumption.
    destruct (IH (acc ++ entries env bi bo [r])
                 (set_log (log s ++ map EvStderr (diagnostics env r)) s) Hi Ho)
      as (spec & Hspec & Hrun).
    exists spec. split; [exact Hspec|]. rewrite Hrun. f_equal.
    apply state_eq; simpl; try reflexivity.
    rewrite map_app, app_assoc. reflexivity.
Qed.

(** ** Registration of a route *)

Lemma prepare_for_output_run (self : ref) (s : State) :
  prepare_for_output self s = (Ok tt, prepared self s).
Proof.
  unfold prepare_for_output, prepared. mrun. fold (lookup_dev s self).
  destruct (output (lookup_dev s self)); reflexivity.
Qed.

Lemma lookup_dev_alter (f : MidiDevice -> MidiDevice) (self r : ref) (s : State) :
  default (new_device "" 0) (alter f self (heap s) !! r) =
  if decide (self = r)
  then match heap s !! r with
       | Some d => f d
       | None => new_device "" 0
       end
  else lookup_dev s r.
Proof.
  rewrite list_lookup_alter. unfold lookup_dev.
  destruct (decide (self = r)) as [->|]; [|reflexivity].
  destruct (heap s !! r); reflexivity.
Qed.

Lemma forward_messages_run (self out : ref) (channel : channel_spec) (s : State) :
  forward_messages self out channel s = (Ok tt, listening self out channel (prepared out s)).
Proof.
  unfold forward_messages. unfold bind at 1. rewrite prepare_for_output_run.
  generalize (prepared out s). clear s. intros s. unfold listening. mrun.
  f_equal. apply state_eq; simpl; try reflexivity.
  - apply list_alter_alter_eq.
  - rewrite <- app_assoc. simpl. do 3 f_equal.
    rewrite lookup_dev_alter, decide_True by reflexivity.
    unfold lookup_dev. destruct (heap s !! self); reflexivity.
Qed.

Lemma register_run (e : wire_entry) (s : State) :
  register e s = (Ok tt, registered e s).
Proof.
  destruct e as [[in_d out_d] chan]. unfold register, registered.
  unfold bind, modify. apply forward_messages_run.
Qed.

Lemma prepared_station (self : ref) (s : State) :
  input_devices (prepared self s) = input_devices s /\
  output_devices (prepared self s) = output_devices s /\
  last_wiring (prepared self s) = last_wiring s /\
  length (heap (prepared self s)) = length (heap s) /\
  next_handle s <= next_handle (prepared self s).
Proof.
  unfold prepared. destruct (output (lookup_dev s self)); simpl;
    rewrite ?length_alter; repeat split; lia.
Qed.

Lemma open_output_prepared (self r : ref) (s : State) :
  is_Some (heap s !! self) ->
  open_output (prepared self s) r =
  if decide (r = self)
  then Some (default (next_handle s) (open_output s self))
  else open_output s r.
Proof.
  intros [d Hd]. unfold prepared, lookup_dev, open_output. rewrite Hd. simpl.
  destruct (output d) as [h|] eqn:Eo; simpl.
  - destruct (decide (r = self)) as [->|]; [|reflexivity].
    rewrite Hd. exact Eo.
  - rewrite list_lookup_alter.
    destruct (decide (r = self)) as [->|Hne].
    + rewrite decide_True by reflexivity. rewrite Hd. reflexivity.
    + rewrite decide_False by congruence. reflexivity.
Qed.

Lemma routes_of_prepared (self r : ref) (s : State) :
  routes_of (prepared self s) r = routes_of s r.
Proof.
  unfold prepared, routes_of. destruct (output (lookup_dev s self)); [reflexivity|].
  simpl. rewrite list_lookup_alter.
  destruct (decide (self = r)) as [->|]; [|reflexivity].
  destruct (heap s !! r); reflexivity.
Qed.

Lemma full_name_prepared (self r : ref) (s : State) :
  full_name (lookup_dev (prepared self s) r) = full_name (lookup_dev s r).
Proof.
  unfold prepared. destruct (output (lookup_dev s self)); [reflexivity|].
  unfold lookup_dev at 1. simpl. rewrite lookup_dev_alter.
  destruct (decide (self = r)) as [->|]; [|reflexivity].
  unfold lookup_dev. destruct (heap s !! r); reflexivity.
Qed.

Lemma port_prepared (self r : ref) (s : State) :
  port (lookup_dev (prepared self s) r) = port (lookup_dev s r).
Proof.
  unfold prepared. destruct (output (lookup_dev s self)); [reflexivity|].
  unfold lookup_dev at 1. simpl. rewrite lookup_dev_alter.
  destruct (decide (self = r)) as [->|]; [|reflexivity].
  unfold lookup_dev. destruct (heap s !! r); reflexivity.
Qed.

Lemma open_input_prepared (self r : ref) (s : State) :
  open_input (prepared self s) r = open_input s r.
Proof.
  unfold prepared, open_input. destruct (output (lookup_dev s self)); [reflexivity|].
  simpl. rewrite list_lookup_alter.
  destruct (decide (self = r)) as [->|]; [|reflexivity].
  destruct (heap s !! r); reflexivity.
Qed.

Lemma log_prepared (self : ref) (s : State) :
  exists evs, log (prepared self s) = log s ++ evs /\
              List.existsb is_stderr evs = false /\
              (evs = [] \/ exists portnum, evs = [EvOpenOut (next_handle s) portnum]).
Proof.
  unfold prepared. destruct (output (lookup_dev s self)).
  - exists []. rewrite app_nil_r. auto.
  - eexists. simpl. split; [reflexivity|]. split; [reflexivity|]. right. eauto.
Qed.

Lemma open_output_listening (self out r : ref) (channel : channel_spec) (s : State) :
  open_output (listening self out channel s) r = open_output s r.
Proof.
  unfold listening, open_output. simpl. rewrite list_lookup_alter.
  destruct (decide (self = r)) as [->|]; [|reflexivity].
  destruct (heap s !! r); reflexivity.
Qed.

Lemma routes_of_listening (self out r : ref) (channel : channel_spec) (s : State) :
  is_Some (heap s !! self) ->
  routes_of (listening self out channel s) r =
  routes_of s r ++ if decide (r = self) then [(out, channel)] else [].
Proof.
  intros [d Hd]. unfold listening, routes_of. simpl. rewrite list_lookup_alter.
  destruct (decide (r = self)) as [->|Hne].
  - rewrite decide_True by reflexivity. rewrite Hd. reflexivity.
  - rewrite decide_False by congruence. rewrite app_nil_r. reflexivity.
Qed.

Lemma full_name_listening (self out r : ref) (channel : channel_spec) (s : State) :
  full_name (lookup_dev (listening self out channel s) r) = full_name (lookup_dev s r).
Proof.
  unfold listening. unfold lookup_dev at 1. simpl. rewrite lookup_dev_alter.
  destruct (decide (self = r)) as [->|]; [|reflexivity].
  unfold lookup_dev. destruct (heap s !! r); reflexivity.
Qed.

Lemma open_input_listening (self out : ref) (channel : channel_spec) (s : State) :
  is_Some (heap s !! self) ->
  open_input (listening self out channel s) self = Some (next_handle s).
Proof.
  intros [d Hd]. unfold listening, open_input. simpl.
  rewrite list_lookup_alter_eq, Hd. reflexivity.
Qed.

Lemma valid_prepared (self r : ref) (s : State) :
  is_Some (heap (prepared self s) !! r) <-> is_Some (heap s !! r).
Proof.
  rewrite !lookup_lt_is_Some.
  destruct (prepared_station self s) as (_ & _ & _ & -> & _). reflexivity.
Qed.

Lemma valid_listening (self out r : ref) (channel : channel_spec) (s : State) :
  is_Some (heap (listening self out channel s) !! r) <-> is_Some (heap s !! r).
Proof.
  rewrite !lookup_lt_is_Some. unfold listening. simpl. rewrite length_alter.
  reflexivity.
Qed.

Section Registered.
Variables (in_d out_d : ref) (chan : channel_spec) (s : State).
Hypothesis Hin : is_Some (heap s !! in_d).
Hypothesis Hout : is_Some (heap s !! out_d).

Lemma registered_station :
  input_devices (registered (in_d, out_d, chan) s) = input_devices s ++ [in_d] /\
  output_devices (registered (in_d, out_d, chan) s) = output_devices s ++ [out_d] /\
  last_wiring (registered (in_d, out_d, chan) s) = last_wiring s /\
  next_handle s < next_handle (registered (in_d, out_d, chan) s) /\
  length (heap (registered (in_d, out_d, chan) s)) = length (heap s).
Proof.
  unfold registered, listening. simpl. rewrite length_alter.
  match goal with |- context [prepared out_d ?t] =>
    destruct (prepared_station out_d t) as (-> & -> & -> & -> & Hle) end.
  simpl in *. repeat split. lia.
Qed.

Lemma registered_valid (r : ref) :
  is_Some (heap (registered (in_d, out_d, chan) s) !! r) <-> is_Some (heap s !! r).
Proof.
  rewrite !lookup_lt_is_Some.
  destruct registered_station as (_ & _ & _ & _ & ->). reflexivity.
Qed.

Lemma open_output_registered (r : ref) :
  open_output (registered (in_d, out_d, chan) s) r =
  if decide (r = out_d)
  then Some (default (next_handle s) (open_output s out_d))
  else open_output s r.
Proof.
  unfold registered. rewrite open_output_listening.
  rewrite open_output_prepared by exact Hout. reflexivity.
Qed.

Lemma routes_of_registered (r : ref) :
  routes_of (registered (in_d, out_d, chan) s) r = routes_of s r ++ if decide (r = in_d) then [(out_d, chan)] else [].
Proof.
  unfold registered. rewrite routes_of_listening.
  - rewrite routes_of_prepared. reflexivity.
  - apply valid_prepared. exact Hin.
Qed.

Lemma full_name_registered (r : ref) :
  full_name (lookup_dev (registered (in_d, out_d, chan) s) r) = full_name (lookup_dev s r).
Proof.
  unfold registered. rewrite full_name_listening, full_name_prepared.
  reflexivity.
Qed.

Lemma open_input_registered : is_Some (open_input (registered (in_d, out_d, chan) s) in_d).
Proof.
  unfold registered. rewrite open_input_listening; [eauto|].
  apply valid_prepared. exact Hin.
Qed.

Lemma log_registered :
  exists evs, log (registered (in_d, out_d, chan) s) = log s ++ evs /\ List.existsb is_stderr evs = false.
Proof.
  unfold registered, listening. simpl.
  match goal with |- context [prepared out_d ?t] =>
    destruct (log_prepared out_d t) as (evs & -> & Hevs & _) end.
  simpl. eexists. rewrite <- app_assoc. split; [reflexivity|].
  rewrite List.existsb_app, Hevs. reflexivity.
Qed.

Lemma wf_registered :
  wf s ->
  (forall out channel, (out, channel) ∈ routes_of s in_d -> out ∈ output_devices s) ->
  wf (registered (in_d, out_d, chan) s).
Proof.
  intros [Wopen Wdist Wbound Wroutes] Hfresh.
  destruct registered_station as (Hi & Ho & _ & Hn & _).
  split.
  - intros r Hr. rewrite open_output_registered.
    destruct (decide (r = out_d)); [eauto|].
    apply Wopen. rewrite Ho in Hr. apply elem_of_app in Hr.
    destruct Hr as [Hr|Hr]; [exact Hr|].
    apply list_elem_of_singleton in Hr. contradiction.
  - intros r1 r2 h. rewrite !open_output_registered.
    destruct (decide (r1 = out_d)) as [->|H1], (decide (r2 = out_d)) as [->|H2];
      try reflexivity.
    + intros H1 H2'. destruct (open_output s out_d) as [h'|] eqn:E; simpl in H1.
      * apply (Wdist _ _ h); congruence.
      * apply Wbound in H2'. injection H1 as <-. lia.
    + intros H1' H2'. destruct (open_output s out_d) as [h'|] eqn:E; simpl in H2'.
      * apply (Wdist _ _ h); congruence.
      * apply Wbound in H1'. injection H2' as <-. lia.
    + apply Wdist.
  - intros r h. rewrite open_output_registered.
    destruct (decide (r = out_d)) as [->|].
    + destruct (open_output s out_d) as [h'|] eqn:E; intros Hh; simpl in Hh; injection Hh as <-.
      * apply Wbound in E. lia.
      * lia.
    + intros H. apply Wbound in H. lia.
  - intros r out channel. rewrite Hi, Ho, routes_of_registered.
    intros Hr Hroute. apply elem_of_app. apply elem_of_app in Hroute.
    destruct Hroute as [Hroute|Hroute].
    + left. apply elem_of_app in Hr. destruct Hr as [Hr|Hr].
      * eapply Wroutes; eassumption.
      * apply list_elem_of_singleton in Hr. subst r. eapply Hfresh; eassumption.
    + right. destruct (decide (r = in_d)); [|inversion Hroute].
      apply list_elem_of_singleton in Hroute. injection Hroute as -> ->.
      apply list_elem_of_singleton. reflexivity.
Qed.
End Registered.

(** ** The registration loop *)

Lemma registered_all_cons (e : wire_entry) (l : list wire_entry) (s : State) :
  registered_all (e :: l) s = registered_all l (registered e s).
Proof. reflexivity. Qed.

Lemma for_each_register (l : list wire_entry) (s : State) :
  for_each l register s = (Ok tt, registered_all l s).
Proof.
  revert s. induction l as [|e l IH]; intros s.
  - reflexivity.
  - rewrite registered_all_cons, <- IH. simpl. unfold bind.
    rewrite register_run. reflexivity.
Qed.

Lemma valid_entry_registered (e e' : wire_entry) (s : State) :
  valid_entry s e -> valid_entry s e' -> valid_entry (registered e s) e'.
Proof.
  destruct e as [[i o] c]. intros [Hi Ho] [Hi' Ho'].
  split; apply registered_valid; assumption.
Qed.

Lemma open_input_registered_mono (e : wire_entry) (s : State) (r : ref) :
  is_Some (open_input s r) -> is_Some (open_input (registered e s) r).
Proof.
  destruct e as [[i o] c]. unfold registered, listening. intros H.
  set (t := prepared o _).
  assert (Ht : is_Some (open_input t r)).
  { unfold t. rewrite open_input_prepared. exact H. }
  clearbody t. destruct Ht as [h Hh]. unfold open_input in *. simpl.
  rewrite list_lookup_alter.
  destruct (decide (i = r)) as [->|].
  - destruct (heap t !! r) as [d|]; [|discriminate]. simpl. eauto.
  - rewrite Hh. eauto.
Qed.

Lemma registered_all_effect (l : list wire_entry) (s : State) :
  Forall (valid_entry s) l ->
  let s' := registered_all l s in
  input_devices s' = input_devices s ++ map (fun e : wire_entry => e.1.1) l /\
  output_devices s' = output_devices s ++ map (fun e : wire_entry => e.1.2) l /\
  last_wiring s' = last_wiring s /\
  next_handle s <= next_handle s' /\
  length (heap s') = length (heap s) /\
  (forall r, routes_of s' r = routes_of s r ++ routes_for r l) /\
  (forall r h, open_output s r = Some h -> open_output s' r = Some h) /\
  (forall r, r ∈ map (fun e : wire_entry => e.1.2) l -> is_Some (open_output s' r)) /\
  (forall r, is_Some (open_input s r) -> is_Some (open_input s' r)) /\
  (forall r, r ∈ map (fun e : wire_entry => e.1.1) l -> is_Some (open_input s' r)) /\
  (forall r, full_name (lookup_dev s' r) = full_name (lookup_dev s r)) /\
  (exists evs, log s' = log s ++ evs /\ List.existsb is_stderr evs = false).
Proof.
  intros Hvalid. revert s Hvalid. induction l as [|e l IH]; intros s Hvalid.
  - simpl. rewrite !app_nil_r. repeat split; auto.
    + intros r. unfold routes_for. simpl. rewrite app_nil_r. reflexivity.
    + intros r H. inversion H.
    + intros r H. inversion H.
    + exists []. rewrite app_nil_r. auto.
  - apply Forall_cons in Hvalid. destruct Hvalid as [He Hl].
    assert (Hl' : Forall (valid_entry (registered e s)) l).
    { eapply Forall_impl; [exact Hl|]. intros e'. apply valid_entry_registered, He. }
    specialize (IH (registered e s) Hl').
    rewrite registered_all_cons. cbv zeta in IH |- *.
    destruct IH as (I1 & I2 & I3 & I4 & I5 & I6 & I7 & I8 & I9 & I10 & I11 & evs & I12 & I13).
    destruct e as [[i o] c]. destruct He as [Hi Ho]. simpl in Hi, Ho.
    destruct (registered_station i o c s) as (R1 & R2 & R3 & R4 & R5).
    rewrite I1, I2, I3, I5, R1, R2, R3, R5, <- !app_assoc. cbn [map app fst snd].
    repeat split; auto.
    + lia.
    + intros r. rewrite I6, (routes_of_registered i o c s Hi), <- app_assoc. f_equal.
      unfold routes_for. simpl. destruct (Nat.eqb_spec i r) as [->|Hne].
      * rewrite decide_True by reflexivity. reflexivity.
      * rewrite decide_False by congruence. reflexivity.
    + intros r h H. apply I7. rewrite (open_output_registered i o c s Ho).
      destruct (decide (r = o)) as [->|]; [|exact H]. rewrite H. reflexivity.
    + intros r Hr. apply elem_of_cons in Hr. destruct Hr as [->|Hr]; [|auto].
      assert (H : is_Some (open_output (registered (i, o, c) s) o)).
      { rewrite (open_output_registered i o c s Ho), decide_True by reflexivity. eauto. }
      destruct H as [h H]. exists h. apply I7, H.
    + intros r Hr. apply I9, open_input_registered_mono, Hr.
    + intros r Hr. apply elem_of_cons in Hr. destruct Hr as [->|Hr]; [|auto].
      apply I9, (open_input_registered i o c s Hi).
    + intros r. rewrite I11. apply (full_name_registered i o c s).
    + destruct (log_registered i o c s) as (evs0 & L1 & L2).
      exists (evs0 ++ evs). rewrite I12, L1, <- app_assoc. split; [reflexivity|].
      rewrite List.existsb_app, L2, I13. reflexivity.
Qed.

Lemma wf_registered_all (l : list wire_entry) (s : State) :
  wf s ->
  Forall (fun e : wire_entry =>
            valid_entry s e /\
            forall out channel,
              (out, channel) ∈ routes_of s e.1.1 -> out ∈ output_devices s) l ->
  wf (registered_all l s).
Proof.
  revert s. induction l as [|e l IH]; intros s Hwf Hl; [exact Hwf|].
  apply Forall_cons in Hl. destruct Hl as [[He Hfresh] Hl].
  rewrite registered_all_cons. destruct e as [[i o] c]. destruct He as [Hi Ho].
  simpl in Hi, Ho, Hfresh.
  apply IH.
  - apply wf_registered; assumption.
  - eapply Forall_impl; [exact Hl|]. intros [[i' o'] c'] [He' Hf']. split.
    + apply (valid_entry_registered (i, o, c)); [split; assumption|exact He'].
    + intros out channel. cbn [fst snd] in *.
      destruct He' as [Hi' _]. cbn [fst snd] in Hi'.
      rewrite (routes_of_registered i o c s Hi).
      destruct (registered_station i o c s) as (_ & -> & _).
      intros H. apply elem_of_app. apply elem_of_app in H. destruct H as [H|H].
      * left. eapply Hf', H.
      * right. destruct (decide (i' = i)); [|inversion H].
        apply list_elem_of_singleton in H. injection H as -> ->.
        apply list_elem_of_singleton. reflexivity.
Qed.

(** ** [wire] *)

Lemma fresh_devices_lookup (names : list string) (i : nat) (name : string) :
  names !! i = Some name -> fresh_devices names !! i = Some (new_device name i).
Proof. intros H. unfold fresh_devices. rewrite list_lookup_imap, H. reflexivity. Qed.

Lemma length_fresh_devices (names : list string) :
  length (fresh_devices names) = length names.
Proof. apply length_imap. Qed.

Lemma wire_discover (wiring : Wiring) (env : Ports) (s : State) :
  wire wiring env s =
  (wire_list <- resolve_rules wiring
                  (seq (length (heap s)) (length (in_ports env)))
                  (seq (length (heap s) + length (in_ports env)) (length (out_ports env)))
                  [] ;
   for_each wire_list register) (discovered wiring env s).
Proof.
  unfold wire, discover_input_devices, discover_output_devices.
  unfold bind at 1. unfold modify. unfold bind at 1. rewrite discover_devices_run.
  unfold bind at 1. rewrite discover_devices_run.
  cbn [heap set_heap set_next_handle set_last_wiring next_handle].
  rewrite length_app, length_fresh_devices.
  unfold discovered. rewrite <- app_assoc. reflexivity.
Qed.

Lemma names_at_discovered (wiring : Wiring) (env : Ports) (s : State) :
  names_at (discovered wiring env s) (length (heap s)) (in_ports env) /\
  names_at (discovered wiring env s) (length (heap s) + length (in_ports env))
    (out_ports env).
Proof.
  unfold names_at, discovered. simpl. split; intros i name Hname.
  - exists (new_device name i). split; [|reflexivity].
    rewrite lookup_app_r by lia. replace (length (heap s) + i - length (heap s)) with i by lia.
    apply lookup_app_l_Some, fresh_devices_lookup, Hname.
  - exists (new_device name i). split; [|reflexivity].
    rewrite lookup_app_r by lia. rewrite lookup_app_r
      by (rewrite length_fresh_devices; lia).
    rewrite length_fresh_devices.
    replace (length (heap s) + length (in_ports env) + i - length (heap s) -
             length (in_ports env)) with i by lia.
    apply fresh_devices_lookup, Hname.
Qed.

Lemma wire_ok (wiring : Wiring) (env : Ports) (s : State) :
  Forall (fun rule => ~ ambiguous env rule) wiring ->
  wire wiring env s = (Ok tt, wired wiring env s).
Proof.
  intros Hall. rewrite wire_discover. unfold bind.
  destruct (names_at_discovered wiring env s) as [Hi Ho].
  rewrite (resolve_rules_ok env _ _ wiring [] _ Hi Ho Hall).
  rewrite app_nil_l. apply for_each_register.
Qed.

Lemma wire_raise (pre : Wiring) (rule : wiring_rule) (post : Wiring) (env : Ports)
    (s : State) :
  Forall (fun rule => ~ ambiguous env rule) pre ->
  ambiguous env rule ->
  exists spec,
    (spec = rule.1.1 \/ spec = rule.2) /\
    wire (pre ++ rule :: post) env s =
    (Raise (Exception_more_than_one spec),
     set_log (log s ++ map EvStderr (flat_map (diagnostics env) pre))
       (discovered (pre ++ rule :: post) env s)).
Proof.
  intros Hpre Hamb.
  destruct (names_at_discovered (pre ++ rule :: post) env s) as [Hi Ho].
  destruct (resolve_rules_raise env _ _ pre rule post [] _ Hi Ho Hpre Hamb)
    as (spec & Hspec & Hrun).
  exists spec. split; [exact Hspec|].
  rewrite wire_discover. unfold bind. rewrite Hrun. reflexivity.
Qed.

Lemma ambiguous_dec (env : Ports) (rule : wiring_rule) :
  {ambiguous env rule} + {~ ambiguous env rule}.
Proof.
  destruct rule as [[input_spec channel] output_spec]. unfold ambiguous.
  destruct (le_dec 2 (length (candidates input_spec (in_ports env))));
    destruct (le_dec 2 (length (candidates output_spec (out_ports env))));
    solve [left; auto | right; intros [?|?]; contradiction].
Qed.

(** A wiring has no ambiguous rule, or a first one. *)
Lemma wiring_cases (env : Ports) (wiring : Wiring) :
  Forall (fun rule => ~ ambiguous env rule) wiring \/
  exists pre rule post,
    wiring = pre ++ rule :: post /\
    Forall (fun rule => ~ ambiguous env rule) pre /\
    ambiguous env rule.
Proof.
  induction wiring as [|r w IH]; [left; constructor|].
  destruct (ambiguous_dec env r) as [Hr|Hr].
  - right. exists [], r, w. repeat split; [constructor|exact Hr].
  - destruct IH as [IH|(pre & rule & post & -> & Hpre & Hrule)].
    + left. constructor; assumption.
    + right. exists (r :: pre), rule, post. repeat split; [constructor|]; assumption.
Qed.

(** ** The discovered state *)

Lemma lookup_discovered (wiring : Wiring) (env : Ports) (s : State) (r : ref) :
  heap (discovered wiring env s) !! r = heap s !! r \/
  heap s !! r = None /\
  exists name portnum, heap (discovered wiring env s) !! r = Some (new_device name portnum).
Proof.
  unfold discovered. simpl.
  destruct (heap s !! r) as [d|] eqn:E.
  - left. apply lookup_app_l_Some, E.
  - apply lookup_ge_None in E. rewrite lookup_app_r by exact E.
    destruct ((fresh_devices (in_ports env) ++ fresh_devices (out_ports env))
                !! (r - length (heap s))) as [d|] eqn:E'; [|left; reflexivity].
    right. split; [reflexivity|].
    apply lookup_app_Some in E'. unfold fresh_devices in E'.
    destruct E' as [E'|[_ E']]; apply list_lookup_imap_Some in E';
      destruct E' as (name & _ & ->); eauto.
Qed.

Lemma open_output_discovered (wiring : Wiring) (env : Ports) (s : State) (r : ref) :
  open_output (discovered wiring env s) r = open_output s r.
Proof.
  unfold open_output.
  destruct (lookup_discovered wiring env s r) as [->|(-> & name & portnum & ->)];
    reflexivity.
Qed.

Lemma open_input_discovered (wiring : Wiring) (env : Ports) (s : State) (r : ref) :
  open_input (discovered wiring env s) r = open_input s r.
Proof.
  unfold open_input.
  destruct (lookup_discovered wiring env s r) as [->|(-> & name & portnum & ->)];
    reflexivity.
Qed.

Lemma routes_of_discovered (wiring : Wiring) (env : Ports) (s : State) (r : ref) :
  routes_of (discovered wiring env s) r = routes_of s r.
Proof.
  unfold routes_of.
  destruct (lookup_discovered wiring env s r) as [->|(-> & name & portnum & ->)];
    reflexivity.
Qed.

Lemma wf_discovered (wiring : Wiring) (env : Ports) (s : State) (l : list Event) :
  wf s -> wf (set_log l (discovered wiring env s)).
Proof.
  intros [Wopen Wdist Wbound Wroutes]. split.
  - intros r Hr. change (is_Some (open_output (discovered wiring env s) r)).
    rewrite open_output_discovered. apply Wopen, Hr.
  - intros r1 r2 h.
    change (open_output (discovered wiring env s) r1 = Some h ->
            open_output (discovered wiring env s) r2 = Some h -> r1 = r2).
    rewrite !open_output_discovered. apply Wdist.
  - intros r h. change (open_output (discovered wiring env s) r = Some h ->
                        h < S (S (next_handle s))).
    rewrite open_output_discovered. intros H. apply Wbound in H. lia.
  - intros r out channel Hr.
    change ((out, channel) ∈ routes_of (discovered wiring env s) r ->
            out ∈ output_devices s).
    rewrite routes_of_discovered. apply Wroutes, Hr.
Qed.

(** ** The entries of a wiring *)

Lemma candidates_lt (spec : user_spec) (names : list string) (i : nat) :
  In i (candidates spec names) -> i < length names.
Proof.
  unfold candidates. intros H. apply List.filter_In in H. destruct H as [H _].
  apply in_seq in H. lia.
Qed.

Lemma resolved_lt (env : Ports) (rule : wiring_rule) (i j : nat) (c : channel_spec) :
  resolved env rule = Some (i, j, c) ->
  i < length (in_ports env) /\ j < length (out_ports env).
Proof.
  destruct rule as [[input_spec channel] output_spec]. unfold resolved.
  destruct (candidates input_spec (in_ports env)) as [|i0 [|? ?]] eqn:Ei; try discriminate.
  destruct (candidates output_spec (out_ports env)) as [|j0 [|? ?]] eqn:Ej; try discriminate.
  intros [= <- <- <-]. split.
  - apply (candidates_lt input_spec). rewrite Ei. left. reflexivity.
  - apply (candidates_lt output_spec). rewrite Ej. left. reflexivity.
Qed.

Lemma entries_spec (env : Ports) (bi bo : nat) (wiring : Wiring) (e : wire_entry) :
  e ∈ entries env bi bo wiring ->
  exists rule i j c,
    rule ∈ wiring /\ resolved env rule = Some (i, j, c) /\ e = (bi + i, bo + j, c).
Proof.
  unfold entries. intros H. apply list_elem_of_In, in_map_iff in H.
  destruct H as ([[i j] c] & <- & H). apply list_elem_of_In, list_elem_of_omap in H.
  destruct H as (rule & Hrule & Hres). exists rule, i, j, c. auto.
Qed.

Lemma entries_fresh (wiring : Wiring) (env : Ports) (s : State) (l : list Event) :
  Forall (fun e : wire_entry =>
            valid_entry (set_log l (discovered wiring env s)) e /\
            forall out channel,
              (out, channel) ∈ routes_of (set_log l (discovered wiring env s)) e.1.1 ->
              out ∈ output_devices (set_log l (discovered wiring env s)))
         (entries env (length (heap s)) (length (heap s) + length (in_ports env)) wiring).
Proof.
  apply Forall_forall. intros e He.
  apply entries_spec in He. destruct He as (rule & i & j & c & _ & Hres & ->).
  apply resolved_lt in Hres. destruct Hres as [Hi Hj].
  destruct (names_at_discovered wiring env s) as [Ni No].
  destruct (lookup_lt_is_Some_2 _ _ Hi) as [ni Hni].
  destruct (lookup_lt_is_Some_2 _ _ Hj) as [nj Hnj].
  destruct (Ni i ni Hni) as (di & Hdi & _). destruct (No j nj Hnj) as (dj & Hdj & _).
  split.
  - split; cbn [fst snd];
      [exists di; exact Hdi|exists dj; exact Hdj].
  - cbn [fst snd]. intros out channel.
    change (routes_of (set_log l (discovered wiring env s)) (length (heap s) + i))
      with (routes_of (discovered wiring env s) (length (heap s) + i)).
    rewrite routes_of_discovered. unfold routes_of.
    rewrite (proj2 (lookup_ge_None (heap s) (length (heap s) + i))) by lia.
    intros H. inversion H.
Qed.

(** ** Well-formedness is kept by every operation *)

Lemma wf_wire (wiring : Wiring) (env : Ports) (s : State) :
  wf s -> wf (snd (wire wiring env s)).
Proof.
  intros Hwf.
  destruct (wiring_cases env wiring) as [Hall|(pre & rule & post & -> & Hpre & Hrule)].
  - rewrite wire_ok by exact Hall. simpl. unfold wired.
    apply wf_registered_all.
    + apply wf_discovered, Hwf.
    + apply entries_fresh.
  - destruct (wire_raise pre rule post env s Hpre Hrule) as (spec & _ & ->).
    simpl. apply wf_discovered, Hwf.
Qed.

Lemma wf_reset (s : State) : wf s -> wf (reset_state s).
Proof.
  intros [Wopen Wdist Wbound Wroutes].
  assert (Hmono : forall r h, open_output (reset_state s) r = Some h ->
                              open_output s r = Some h).
  { intros r h. unfold reset_state.
    change (open_output (close_all (output_devices s)
              (set_input_devices [] (close_all (input_devices s) s))) r = Some h ->
            open_output s r = Some h).
    rewrite open_output_close_all. destruct (decide _); [discriminate|].
    change (open_output (close_all (input_devices s) s) r = Some h ->
            open_output s r = Some h).
    rewrite open_output_close_all. destruct (decide _); [discriminate|]. auto. }
  assert (Hnext : next_handle (reset_state s) = next_handle s).
  { unfold reset_state. simpl.
    destruct (close_all_station (output_devices s)
                (set_input_devices [] (close_all (input_devices s) s)))
      as (_ & _ & _ & ->). simpl.
    destruct (close_all_station (input_devices s) s) as (_ & _ & _ & ->). reflexivity. }
  assert (Hins : input_devices (reset_state s) = []).
  { unfold reset_state. simpl.
    destruct (close_all_station (output_devices s)
                (set_input_devices [] (close_all (input_devices s) s)))
      as (-> & _). reflexivity. }
  split.
  - intros r Hr. inversion Hr.
  - intros r1 r2 h H1 H2. eapply Wdist; eauto.
  - intros r h H. rewrite Hnext. eauto.
  - intros r out channel Hr. rewrite Hins in Hr. inversion Hr.
Qed.

Lemma wf_set_log (l : list Event) (n : nat) (s : State) :
  wf s -> next_handle s <= n -> wf (set_log l (set_next_handle n s)).
Proof.
  intros [Wopen Wdist Wbound Wroutes] Hn. split; try assumption.
  intros r h H. apply Wbound in H. simpl. lia.
Qed.

Lemma wf_log (l : list Event) (s : State) : wf s -> wf (set_log l s).
Proof. intros [Wopen Wdist Wbound Wroutes]. split; assumption. Qed.

Lemma frame_refl (s : State) : s = set_log (log s ++ []) s.
Proof. apply state_eq; simpl; try reflexivity. rewrite app_nil_r. reflexivity. Qed.

Lemma for_each_frame {A} (l : list A) (body : A -> M unit) :
  (forall x s, exists evs, snd (body x s) = set_log (log s ++ evs) s) ->
  forall s, exists evs, snd (for_each l body s) = set_log (log s ++ evs) s.
Proof.
  intros Hbody. induction l as [|x l IH]; intros s.
  - exists []. apply frame_refl.
  - cbn [for_each]. unfold bind. destruct (Hbody x s) as [evs Hevs].
    destruct (body x s) as [[[]|e] s1]; simpl in Hevs; subst s1.
    + destruct (IH (set_log (log s ++ evs) s)) as [evs' ->].
      exists (evs ++ evs'). apply state_eq; simpl; try reflexivity.
      rewrite <- app_assoc. reflexivity.
    + exists evs. reflexivity.
Qed.

Lemma send_message_frame (self : ref) (message : list Z) (s : State) :
  exists evs, snd (send_message self message s) = set_log (log s ++ evs) s.
Proof.
  unfold send_message, bind, deref, gets. destruct (output _) as [h|].
  - exists [EvSend h message]. reflexivity.
  - exists []. apply frame_refl.
Qed.

Lemma callback_frame (self : ref) (message : list Z) (s : State) :
  exists evs, snd (callback self message s) = set_log (log s ++ evs) s.
Proof.
  destruct message as [|b rest].
  - exists []. simpl. apply state_eq; simpl; try reflexivity.
    rewrite app_nil_r. reflexivity.
  - unfold callback. unfold bind, deref, gets. apply for_each_frame.
    intros [out channel] t. destruct (channel_eq channel _).
    + apply send_message_frame.
    + exists []. apply frame_refl.
Qed.

Lemma rewire_run (wiring : Wiring) (env : Ports) (s : State) :
  rewire wiring env s =
  match last_wiring s with
  | None => (Raise ValueError_no_wiring_set, s)
  | Some last => wire last env (reset_state s)
  end.
Proof.
  unfold rewire. unfold bind at 1. unfold gets.
  destruct (last_wiring s) as [last|]; [|reflexivity].
  unfold bind. rewrite reset_run. reflexivity.
Qed.

Lemma wf_run_op (o : op) (s : State) : wf s -> wf (snd (run_op o s)).
Proof.
  intros Hwf. destruct o as [wiring env| |env|wiring env|self message]; simpl.
  - apply wf_wire, Hwf.
  - rewrite reset_run. apply wf_reset, Hwf.
  - rewrite panic_run. apply wf_set_log; [exact Hwf|lia].
  - rewrite rewire_run. destruct (last_wiring s); [|exact Hwf].
    apply wf_wire, wf_reset, Hwf.
  - destruct (callback_frame self message s) as [evs ->]. apply wf_log, Hwf.
Qed.

Lemma wf_init : wf init.
Proof.
  split.
  - intros r H. inversion H.
  - intros r1 r2 h H. unfold open_output in H. simpl in H. discriminate.
  - intros r h H. unfold open_output in H. simpl in H. discriminate.
  - intros r out channel H. inversion H.
Qed.

Lemma wf_run (ops : list op) (s : State) : wf s -> wf (run ops s).
Proof.
  revert s. induction ops as [|o ops IH]; intros s Hwf; [exact Hwf|].
  simpl. apply IH, wf_run_op, Hwf.
Qed.

Lemma reachable_wf (s : State) : reachable s -> wf s.
Proof. intros [ops ->]. apply wf_run, wf_init. Qed.

(** ** The remembered wiring *)

Lemma last_wiring_registered_all (l : list wire_entry) (s : State) :
  last_wiring (registered_all l s) = last_wiring s.
Proof.
  revert s. induction l as [|[[i o] c] l IH]; intros s; [reflexivity|].
  rewrite registered_all_cons, IH. unfold registered, listening. simpl.
  match goal with |- context [prepared o ?t] =>
    destruct (prepared_station o t) as (_ & _ & -> & _) end.
  reflexivity.
Qed.

Lemma last_wiring_wire (wiring : Wiring) (env : Ports) (s : State) :
  last_wiring (snd (wire wiring env s)) = Some wiring.
Proof.
  destruct (wiring_cases env wiring) as [Hall|(pre & rule & post & -> & Hpre & Hrule)].
  - rewrite wire_ok by exact Hall. simpl. unfold wired.
    rewrite last_wiring_registered_all. reflexivity.
  - destruct (wire_raise pre rule post env s Hpre Hrule) as (spec & _ & ->).
    reflexivity.
Qed.

Lemma last_wiring_reset (s : State) : last_wiring (reset_state s) = last_wiring s.
Proof.
  unfold reset_state. simpl.
  destruct (close_all_station (output_devices s)
              (set_input_devices [] (close_all (input_devices s) s)))
    as (_ & _ & -> & _). simpl.
  destruct (close_all_station (input_devices s) s) as (_ & _ & -> & _). reflexivity.
Qed.

Lemma last_wiring_run_op (o : op) (s : State) :
  last_wiring (snd (run_op o s)) =
  match o with
  | OpWire wiring _ => Some wiring
  | _ => last_wiring s
  end.
Proof.
  destruct o as [wiring env| |env|wiring env|self message]; simpl.
  - apply last_wiring_wire.
  - rewrite reset_run. apply last_wiring_reset.
  - rewrite panic_run. reflexivity.
  - rewrite rewire_run. destruct (last_wiring s) as [last|] eqn:E; [|exact E].
    apply last_wiring_wire.
  - destruct (callback_frame self message s) as [evs ->]. reflexivity.
Qed.

Lemma last_wiring_run (ops : list op) (s : State) :
  last_wiring (run ops s) = last_wire_of ops (last_wiring s).
Proof.
  revert s. induction ops as [|o ops IH]; intros s; [reflexivity|].
  simpl. rewrite IH, last_wiring_run_op. destruct o; reflexivity.
Qed.

Lemma last_wire_of_some (ops : list op) (w : Wiring) :
  last_wire_of ops (Some w) <> None.
Proof.
  revert w. induction ops as [|o ops IH]; intros w; [discriminate|].
  destruct o; simpl; apply IH.
Qed.

Lemma reset_state_unwired (s : State) :
  input_devices (reset_state s) = [] /\ output_devices (reset_state s) = [].
Proof.
  unfold reset_state. simpl. split; [|reflexivity].
  destruct (close_all_station (output_devices s)
              (set_input_devices [] (close_all (input_devices s) s)))
    as (-> & _). reflexivity.
Qed.

Lemma never_wired_unwired (ops : list op) (s : State) :
  last_wiring s = None ->
  input_devices s = [] ->
  output_devices s = [] ->
  last_wire_of ops None = None ->
  input_devices (run ops s) = [] /\ output_devices (run ops s) = [].
Proof.
  revert s. induction ops as [|o ops IH]; intros s Hw Hi Ho Hnone; [auto|].
  destruct o as [wiring env| |env|wiring env|self message]; simpl in Hnone |- *.
  - exfalso. exact (last_wire_of_some _ _ Hnone).
  - rewrite reset_run. cbn [snd]. destruct (reset_state_unwired s).
    apply IH; auto. rewrite last_wiring_reset. exact Hw.
  - rewrite panic_run. cbn [snd]. apply IH; auto.
  - rewrite rewire_run, Hw. cbn [snd]. apply IH; auto.
  - destruct (callback_frame self message s) as [evs ->]. apply IH; auto.
Qed.

(** ** The trace of [reset] *)

Lemma close_trace_ext (l : list ref) (s t : State) :
  heap s = heap t -> close_trace l s = close_trace l t.
Proof.
  revert s t. induction l as [|r l IH]; intros s t Heq; [reflexivity|].
  simpl. unfold lookup_dev. rewrite Heq. f_equal.
  apply IH. simpl. rewrite Heq. reflexivity.
Qed.

Lemma close_trace_app (l1 l2 : list ref) (s : State) :
  close_trace (l1 ++ l2) s = close_trace l1 s ++ close_trace l2 (close_all l1 s).
Proof.
  revert s. induction l1 as [|r l1 IH]; intros s; [reflexivity|].
  simpl. rewrite IH, <- app_assoc. reflexivity.
Qed.

Lemma reset_state_log (s : State) :
  log (reset_state s) = log s ++ close_trace (input_devices s ++ output_devices s) s.
Proof.
  unfold reset_state. cbn [log set_output_devices].
  rewrite close_all_log. cbn [log set_input_devices].
  rewrite close_all_log, close_trace_app, <- app_assoc. do 2 f_equal.
  apply close_trace_ext. reflexivity.
Qed.

Lemma reset_state_idem (s : State) : reset_state (reset_state s) = reset_state s.
Proof.
  destruct (reset_state_unwired s) as [Hi Ho].
  unfold reset_state at 1. rewrite Hi, Ho. apply state_eq; simpl; try reflexivity.
  - symmetry. exact Hi.
Qed.

Lemma open_output_reset_state (s : State) (r : ref) :
  open_output (reset_state s) r =
  if decide (r ∈ input_devices s ++ output_devices s) then None else open_output s r.
Proof.
  unfold reset_state.
  change (open_output (close_all (output_devices s)
            (set_input_devices [] (close_all (input_devices s) s))) r =
          if decide (r ∈ input_devices s ++ output_devices s)
          then None else open_output s r).
  rewrite open_output_close_all.
  change (open_output (set_input_devices [] (close_all (input_devices s) s)) r)
    with (open_output (close_all (input_devices s) s) r).
  rewrite open_output_close_all.
  destruct (decide (r ∈ output_devices s)) as [Ho|Ho].
  - rewrite decide_True; [reflexivity|]. apply elem_of_app. right. exact Ho.
  - destruct (decide (r ∈ input_devices s)) as [Hi|Hi].
    + rewrite decide_True; [reflexivity|]. apply elem_of_app. left. exact Hi.
    + rewrite decide_False; [reflexivity|]. intros H. apply elem_of_app in H.
      destruct H as [H|H]; contradiction.
Qed.

(** C2: on [reset], the output connection of every active output device sees
    exactly All-Sound-Off, All-Notes-Off and Reset-All-Controllers, each a
    control change on channel 0 with value 0, in that order, and then its
    closing, and nothing else, however many rules registered the device;
    afterwards no device is active, and a second [reset] changes nothing, so
    it sends nothing. *)
Theorem reset_silences_outputs (s : State) (r : ref) :
  reachable s ->
  r ∈ output_devices s ->
  exists h evs,
    open_output s r = Some h /\
    reset s = (Ok tt, reset_state s) /\
    log (reset_state s) = log s ++ evs /\
    List.filter (on_output h) evs =
      [ EvSend h [176; 120; 0]%Z; EvSend h [176; 123; 0]%Z; EvSend h [176; 121; 0]%Z;
        EvCloseOut h ] /\
    [176; 120; 0]%Z = [CONTROL_CHANGE; ALL_SOUND_OFF; 0%Z] /\
    [176; 123; 0]%Z = [CONTROL_CHANGE; ALL_NOTES_OFF; 0%Z] /\
    [176; 121; 0]%Z = [CONTROL_CHANGE; RESET_ALL_CONTROLLERS; 0%Z] /\
    Z.land CONTROL_CHANGE 15 = 0%Z /\
    open_output (reset_state s) r = None /\
    input_devices (reset_state s) = [] /\
    output_devices (reset_state s) = [] /\
    reset (reset_state s) = (Ok tt, reset_state s).
Proof.
  intros Hreach Hr. apply reachable_wf in Hreach.
  destruct Hreach as [Wopen Wdist Wbound Wroutes].
  destruct (Wopen r Hr) as [h Hh].
  exists h, (close_trace (input_devices s ++ output_devices s) s).
  split; [exact Hh|]. split; [apply reset_run|]. split; [apply reset_state_log|].
  split.
  { apply (close_trace_once _ s r h Wdist Hh). apply elem_of_app. right. exact Hr. }
  do 4 (split; [reflexivity|]).
  split.
  { rewrite open_output_reset_state, decide_True; [reflexivity|].
    apply elem_of_app. right. exact Hr. }
  destruct (reset_state_unwired s) as [Hi Ho].
  split; [exact Hi|]. split; [exact Ho|].
  rewrite reset_run, reset_state_idem. reflexivity.
Qed.

Example rig_wired_devices :
  input_devices rig_wired = [0; 0; 1] /\ output_devices rig_wired = [2; 3; 2] /\
  routes_of rig_wired 0 = [(2, AllChannels); (3, IntChannel 1)] /\
  routes_of rig_wired 1 = [(2, IntChannel 2)] /\
  open_output rig_wired 2 = Some 2 /\ open_output rig_wired 3 = Some 4.
Proof. repeat (split; [vm_compute; reflexivity|]). vm_compute. reflexivity. Qed.

Lemma reset_silences_outputs_witness :
  reachable rig_wired /\ 2 ∈ output_devices rig_wired /\
  exists h evs,
    open_output rig_wired 2 = Some h /\
    log (reset_state rig_wired) = log rig_wired ++ evs /\
    List.filter (on_output h) evs =
      [ EvSend h [176; 120; 0]%Z; EvSend h [176; 123; 0]%Z; EvSend h [176; 121; 0]%Z;
        EvCloseOut h ].
Proof.
  assert (Hreach : reachable rig_wired)
    by (exists [OpWire rig_wiring rig]; reflexivity).
  assert (Hin : 2 ∈ output_devices rig_wired) by (vm_compute; left).
  split; [exact Hreach|]. split; [exact Hin|].
  destruct (reset_silences_outputs rig_wired 2 Hreach Hin)
    as (h & evs & H1 & _ & H3 & H4 & _).
  exists h, evs. auto.
Defined.

(** C1 (amended): for an active input device of a station (a device with
    routes registered by [wire] that no [reset] has closed since) and a
    message with first byte [b], the callback takes the low four bits of
    [b] as the channel nibble and sends the message, unchanged, on the open
    output of the destination of each route whose channel accepts the
    nibble, and of no other, route by route in registration order:
    [AllChannels] accepts every nibble and the channel [n] accepts the
    nibble [c] exactly when [n = c + 1]. *)
Theorem callback_forwards (s : State) (self : ref) (b : Z) (rest : list Z) :
  reachable s ->
  self ∈ input_devices s ->
  callback self (b :: rest) s =
    (Ok tt, set_log (log s ++ forwarded s (b :: rest) (Z.land b 15) (routes_of s self)) s) /\
  (forall out channel,
      (out, channel) ∈ routes_of s self -> is_Some (open_output s out)) /\
  (forall c, chan_accepts AllChannels c = true) /\
  (forall n c, chan_accepts (IntChannel n) c = true <-> n = (c + 1)%Z).
Proof.
  intros Hreach Hself. apply reachable_wf in Hreach.
  destruct Hreach as [Wopen Wdist Wbound Wroutes].
  assert (Hopen : forall out channel,
             (out, channel) ∈ routes_of s self -> is_Some (open_output s out)).
  { intros out channel H. eapply Wopen, Wroutes; eassumption. }
  split; [|split; [exact Hopen|split]].
  - apply callback_run. intros out channel H _. eapply Hopen, H.
  - reflexivity.
  - intros n c. simpl. apply bool_decide_eq_true.
Qed.

Lemma callback_forwards_witness :
  reachable rig_wired /\ 0 ∈ input_devices rig_wired /\
  callback 0 [144; 60; 100]%Z rig_wired =
    (Ok tt, set_log (log rig_wired ++
                     [EvSend 2 [144; 60; 100]%Z; EvSend 4 [144; 60; 100]%Z]) rig_wired) /\
  callback 0 [145; 60; 100]%Z rig_wired =
    (Ok tt, set_log (log rig_wired ++ [EvSend 2 [145; 60; 100]%Z]) rig_wired).
Proof.
  assert (Hreach : reachable rig_wired)
    by (exists [OpWire rig_wiring rig]; reflexivity).
  assert (Hin : 0 ∈ input_devices rig_wired) by (vm_compute; left).
  split; [exact Hreach|]. split; [exact Hin|]. split.
  - exact (proj1 (callback_forwards rig_wired 0 144 [60; 100]%Z Hreach Hin)).
  - exact (proj1 (callback_forwards rig_wired 0 145 [60; 100]%Z Hreach Hin)).
Defined.

(** C1 (as stated, refuted): after [wire] of the module's own two rules for
    the one keyboard and a [reset], the keyboard's device still has its two
    routes registered, but their destinations are closed: its callback
    raises on a note-on and forwards nothing. *)
Lemma callback_raises_on_retired_device : ~ callback_forwards_on_every_routed_device.
Proof.
  intros H.
  assert (Hreach : reachable (run [OpWire lpk25_wiring lpk25_ports; OpReset] init))
    by (eexists; reflexivity).
  assert (Hroutes : routes_of (run [OpWire lpk25_wiring lpk25_ports; OpReset] init) 0
                    <> []) by (vm_compute; discriminate).
  destruct (H _ 0 144%Z [60; 100]%Z Hreach Hroutes) as [Hrun _].
  apply (f_equal fst) in Hrun. vm_compute in Hrun. discriminate Hrun.
Qed.

Example retired_device_keeps_routes :
  routes_of (run [OpWire lpk25_wiring lpk25_ports; OpReset] init) 0 =
    [(1, AllChannels); (2, AllChannels)] /\
  input_devices (run [OpWire lpk25_wiring lpk25_ports; OpReset] init) = [] /\
  fst (callback 0 [144; 60; 100]%Z (run [OpWire lpk25_wiring lpk25_ports; OpReset] init)) =
    Raise AttributeError_none.
Proof. repeat (split; [vm_compute; reflexivity|]). vm_compute. reflexivity. Qed.

(** The filter of a route with channel 1: nibble 0 passes, nibble 1 does not. *)
Example channel_one_filter :
  chan_accepts (IntChannel 1) (Z.land 144 15) = true /\
  chan_accepts (IntChannel 1) (Z.land 145 15) = false.
Proof. split; reflexivity. Qed.

(** C8: after any history of operations, [rewire] raises its "No wiring
    set" error (the specification's NoPriorWiring) and changes nothing when
    the history contains no [wire] call, the station then having no active
    device; otherwise, whatever argument it is passed, it does [reset]
    followed by [wire] of the remembered wiring, which discovers the ports
    present at that moment. *)
Theorem rewire_reuses_last_wiring (ops : list op) (wiring : Wiring) (env : Ports) :
  match last_wire_of ops None with
  | None =>
      rewire wiring env (run ops init) = (Raise ValueError_no_wiring_set, run ops init) /\
      input_devices (run ops init) = [] /\
      output_devices (run ops init) = []
  | Some last =>
      last_wiring (run ops init) = Some last /\
      rewire wiring env (run ops init) = (reset ;; wire last env) (run ops init) /\
      rewire wiring env (run ops init) = wire last env (reset_state (run ops init))
  end.
Proof.
  pose proof (last_wiring_run ops init) as Hlast. simpl in Hlast.
  destruct (last_wire_of ops None) as [last|] eqn:E.
  - split; [exact Hlast|]. rewrite rewire_run, Hlast. split; [|reflexivity].
    unfold bind. rewrite reset_run. reflexivity.
  - rewrite rewire_run, Hlast. split; [reflexivity|].
    apply never_wired_unwired; auto.
Qed.

Example rewire_before_wire :
  rewire rig_wiring rig init = (Raise ValueError_no_wiring_set, init).
Proof. vm_compute. reflexivity. Qed.

Example rewire_ignores_argument :
  rewire [] rig rig_wired = rewire rig_wiring rig rig_wired /\
  last_wiring (snd (rewire [] rig rig_wired)) = Some rig_wiring /\
  input_devices (snd (rewire [] rig rig_wired)) = [4; 4; 5].
Proof. split; [|split]; vm_compute; reflexivity. Qed.

(** ** [panic] and the station *)

Lemma flat_map_enumerate {A B} (f : nat -> list B) (l : list A) (k : nat) :
  flat_map (fun '(i, _) => f i) (imap (fun i x => (k + i, x)) l) =
  flat_map f (seq k (length l)).
Proof.
  revert k. induction l as [|x l IH]; intros k; [reflexivity|].
  rewrite imap_cons. cbn [flat_map length seq]. rewrite Nat.add_0_r. f_equal.
  rewrite <- IH. f_equal. apply imap_ext. intros. simpl. f_equal. lia.
Qed.

(** C9: [panic] opens every port the driver lists as an output, in port
    order and whatever the station has active, sends it the three silence
    messages and closes it again, all through one new driver object; the
    active input devices, the active output devices, the remembered wiring
    and every device object are left as they were. *)
Theorem panic_sweeps_all_outputs (env : Ports) (s : State) :
  exists s',
    panic env s = (Ok tt, s') /\
    log s' = log s ++
      flat_map (fun portnum =>
                  [ EvOpenOut (next_handle s) portnum;
                    EvSend (next_handle s) [CONTROL_CHANGE; ALL_SOUND_OFF; 0%Z];
                    EvSend (next_handle s) [CONTROL_CHANGE; ALL_NOTES_OFF; 0%Z];
                    EvSend (next_handle s) [CONTROL_CHANGE; RESET_ALL_CONTROLLERS; 0%Z];
                    EvCloseOut (next_handle s) ])
               (seq 0 (length (out_ports env))) /\
    input_devices s' = input_devices s /\
    output_devices s' = output_devices s /\
    last_wiring s' = last_wiring s /\
    heap s' = heap s /\
    next_handle s' = S (next_handle s).
Proof.
  eexists. split; [apply panic_run|]. simpl. repeat split.
  f_equal. unfold panic_events, enumerate.
  apply (flat_map_enumerate
           (fun portnum => EvOpenOut (next_handle s) portnum ::
                           silence_and_close (next_handle s)) (out_ports env) 0).
Qed.

Example panic_while_wired :
  log (snd (panic rig rig_wired)) =
  log rig_wired ++
  [ EvOpenOut 7 0; EvSend 7 [176; 120; 0]%Z; EvSend 7 [176; 123; 0]%Z;
    EvSend 7 [176; 121; 0]%Z; EvCloseOut 7;
    EvOpenOut 7 1; EvSend 7 [176; 120; 0]%Z; EvSend 7 [176; 123; 0]%Z;
    EvSend 7 [176; 121; 0]%Z; EvCloseOut 7 ] /\
  output_devices (snd (panic rig rig_wired)) = output_devices rig_wired.
Proof. split; vm_compute; reflexivity. Qed.

(** ** What a failed [wire] leaves *)

(** C7 (as stated, refuted): on a station that remembers [rig_wiring], a
    [wire] call that fails on an ambiguous specification leaves its own
    argument remembered, not the wiring applied before. *)
Lemma failed_wire_overwrites_last_wiring : ~ failed_wire_keeps_last_wiring.
Proof.
  intros H.
  specialize (H [(StrSpec "pad", AllChannels, StrSpec "synth")]
                (mkPorts ["padA"; "padB"] ["synth"]) rig_wired
                (Exception_more_than_one (StrSpec "pad"))).
  assert (Hraise : fst (wire [(StrSpec "pad", AllChannels, StrSpec "synth")]
                          (mkPorts ["padA"; "padB"] ["synth"]) rig_wired) =
                   Raise (Exception_more_than_one (StrSpec "pad")))
    by (vm_compute; reflexivity).
  specialize (H Hraise). vm_compute in H. discriminate H.
Qed.

(** C7 (amended): [wire] records its argument as the remembered wiring
    before anything can fail, so after [wire wiring], failed or not, the
    station remembers [wiring], and that is what a following [rewire]
    applies. *)
Theorem wire_remembers_its_argument (wiring : Wiring) (env env' : Ports) (s : State)
    (arg : Wiring) :
  last_wiring (snd (wire wiring env s)) = Some wiring /\
  rewire arg env' (snd (wire wiring env s)) =
    wire wiring env' (reset_state (snd (wire wiring env s))).
Proof.
  split; [apply last_wiring_wire|].
  rewrite rewire_run, last_wiring_wire. reflexivity.
Qed.

Lemma kbd_rule_unambiguous : Forall (fun r => ~ ambiguous two_pads r) [kbd_rule].
Proof. constructor; [|constructor]. vm_compute. intros [H|H]; lia. Qed.

Lemma pad_rule_ambiguous : ambiguous two_pads pad_rule.
Proof. left. vm_compute. lia. Qed.

(** C4 (as stated, refuted): with the rule for "kbd" before the ambiguous
    rule for "pad", [wire] raises and the keyboard is not an active input,
    although wiring the first rule alone makes it one. *)
Lemma ambiguous_rule_drops_earlier_routes : ~ ambiguous_keeps_earlier_routes.
Proof.
  intros H.
  destruct (H [kbd_rule] pad_rule [] two_pads init kbd_rule_unambiguous
              pad_rule_ambiguous) as [Hin _].
  vm_compute in Hin. discriminate Hin.
Qed.

(** C4 (amended): when a rule of the wiring has a specification matching
    more than one candidate, [wire] raises the exception of the first such
    rule and stops before any route is registered: the active input and
    output devices, the routes and the open connections of every device are
    those from before the call, nothing was asked of the driver, and only
    the diagnostics of the rules before the ambiguous one were printed. *)
Theorem ambiguous_rule_aborts_wire (pre : Wiring) (rule : wiring_rule) (post : Wiring)
    (env : Ports) (s : State) :
  Forall (fun r => ~ ambiguous env r) pre ->
  ambiguous env rule ->
  (exists spec,
      (spec = rule.1.1 \/ spec = rule.2) /\
      fst (wire (pre ++ rule :: post) env s) = Raise (Exception_more_than_one spec)) /\
  input_devices (snd (wire (pre ++ rule :: post) env s)) = input_devices s /\
  output_devices (snd (wire (pre ++ rule :: post) env s)) = output_devices s /\
  (forall r,
      routes_of (snd (wire (pre ++ rule :: post) env s)) r = routes_of s r /\
      open_input (snd (wire (pre ++ rule :: post) env s)) r = open_input s r /\
      open_output (snd (wire (pre ++ rule :: post) env s)) r = open_output s r) /\
  log (snd (wire (pre ++ rule :: post) env s)) =
    log s ++ map EvStderr (flat_map (diagnostics env) pre).
Proof.
  intros Hpre Hrule.
  destruct (wire_raise pre rule post env s Hpre Hrule) as (spec & Hspec & ->).
  cbn [fst snd]. split; [exists spec; auto|].
  split; [reflexivity|]. split; [reflexivity|]. split; [|reflexivity].
  intros r. split; [|split].
  - apply (routes_of_discovered (pre ++ rule :: post) env s r).
  - apply (open_input_discovered (pre ++ rule :: post) env s r).
  - apply (open_output_discovered (pre ++ rule :: post) env s r).
Qed.

Lemma ambiguous_rule_aborts_wire_witness :
  Forall (fun r => ~ ambiguous two_pads r) [kbd_rule] /\
  ambiguous two_pads pad_rule /\
  input_devices (snd (wire ([kbd_rule] ++ pad_rule :: [ghost_rule]) two_pads init)) = [] /\
  log (snd (wire ([kbd_rule] ++ pad_rule :: [ghost_rule]) two_pads init)) = [].
Proof.
  assert (Hpre : Forall (fun r => ~ ambiguous two_pads r) [kbd_rule]).
  { constructor; [|constructor]. vm_compute. intros [H|H]; lia. }
  assert (Hrule : ambiguous two_pads pad_rule) by (left; vm_compute; lia).
  split; [exact Hpre|]. split; [exact Hrule|].
  destruct (ambiguous_rule_aborts_wire [kbd_rule] pad_rule [ghost_rule] two_pads init
              Hpre Hrule) as (_ & Hin & _ & _ & Hlog).
  split; [exact Hin|exact Hlog].
Defined.

(** ** What a [wire] without ambiguous rule establishes *)

Lemma routes_for_elem (r : ref) (l : list wire_entry) (i o : ref) (c : channel_spec) :
  (i, o, c) ∈ l -> i = r -> (o, c) ∈ routes_for r l.
Proof.
  intros Hin <-. unfold routes_for. apply list_elem_of_In, in_map_iff.
  exists (i, o, c). split; [reflexivity|].
  apply List.filter_In. split; [apply list_elem_of_In, Hin|].
  simpl. apply Nat.eqb_refl.
Qed.

Lemma entries_elem (env : Ports) (bi bo : nat) (wiring : Wiring) (rule : wiring_rule)
    (i j : nat) (c : channel_spec) :
  rule ∈ wiring -> resolved env rule = Some (i, j, c) ->
  (bi + i, bo + j, c) ∈ entries env bi bo wiring.
Proof.
  intros Hrule Hres. unfold entries. apply list_elem_of_In, in_map_iff.
  exists (i, j, c). split; [reflexivity|].
  apply list_elem_of_In, list_elem_of_omap. eauto.
Qed.

Lemma unresolved_skipped (env : Ports) (rule : wiring_rule) :
  ~ ambiguous env rule ->
  (resolved env rule = None <-> In Skipping (diagnostics env rule)) /\
  (is_Some (resolved env rule) <-> diagnostics env rule = []).
Proof.
  destruct rule as [[input_spec channel] output_spec].
  unfold ambiguous, resolved, diagnostics. intros Hamb.
  destruct (candidates input_spec (in_ports env)) as [|i [|i' ci]];
    [| |exfalso; apply Hamb; left; simpl; lia];
    (destruct (candidates output_spec (out_ports env)) as [|j [|j' co]];
     [| |exfalso; apply Hamb; right; simpl; lia]);
    simpl; (split; split);
    solve [ intros; auto 10
          | intros [?|[?|[?|?]]]; congruence
          | intros [?|[?|?]]; congruence
          | intros [?|?]; congruence
          | intros []
          | intros [? ?]; congruence
          | discriminate
          | eauto ].
Qed.

(** C6 (as stated, refuted): with a rule that matches nothing, a rule that
    resolves uniquely and an ambiguous rule, [wire] raises, and the uniquely
    resolved rule is not applied. *)
Lemma resolved_rule_not_applied : ~ unmatched_rule_skipped_alone.
Proof.
  intros H.
  assert (Hghost : ghost_rule ∈ [ghost_rule; kbd_rule; pad_rule]) by left.
  assert (Hnone : candidates ghost_rule.1.1 (in_ports two_pads) = [] \/
                  candidates ghost_rule.2 (out_ports two_pads) = [])
    by (left; vm_compute; reflexivity).
  assert (Hin : kbd_rule ∈ [ghost_rule; kbd_rule; pad_rule]) by (right; left).
  assert (Hres : resolved two_pads kbd_rule = Some (0, 0, AllChannels))
    by (vm_compute; reflexivity).
  specialize (H [ghost_rule; kbd_rule; pad_rule] two_pads init ghost_rule kbd_rule
                0 0 AllChannels Hghost Hnone Hin Hres).
  vm_compute in H. inversion H.
Qed.

(** C6 (amended): for every wiring in which no rule has a specification
    matching more than one candidate, [wire] succeeds; each rule with a side
    matching no candidate gets its diagnostics printed (ending in
    "Skipping") and no route, and each rule whose two sides resolve
    uniquely gets its route: its input device listens, its output device is
    open, both are active, and the routes of every device grow by exactly
    the routes of the resolved rules, in the order of the rules. *)
Theorem wire_skips_unmatched_rules (wiring : Wiring) (env : Ports) (s : State) :
  Forall (fun rule => ~ ambiguous env rule) wiring ->
  let bi := length (heap s) in
  let bo := length (heap s) + length (in_ports env) in
  let s' := snd (wire wiring env s) in
  fst (wire wiring env s) = Ok tt /\
  (exists evs,
      log s' = log s ++ map EvStderr (flat_map (diagnostics env) wiring) ++ evs /\
      List.existsb is_stderr evs = false) /\
  (forall rule, rule ∈ wiring ->
      (resolved env rule = None <-> In Skipping (diagnostics env rule)) /\
      (is_Some (resolved env rule) <-> diagnostics env rule = [])) /\
  input_devices s' =
    input_devices s ++ map (fun e : wire_entry => e.1.1) (entries env bi bo wiring) /\
  output_devices s' =
    output_devices s ++ map (fun e : wire_entry => e.1.2) (entries env bi bo wiring) /\
  (forall r, routes_of s' r = routes_of s r ++ routes_for r (entries env bi bo wiring)) /\
  (forall rule i j c,
      rule ∈ wiring -> resolved env rule = Some (i, j, c) ->
      (bo + j, c) ∈ routes_of s' (bi + i) /\
      is_Some (open_input s' (bi + i)) /\
      is_Some (open_output s' (bo + j))).
Proof.
  intros Hall bi bo s'. subst s'. rewrite (wire_ok wiring env s Hall).
  cbn [fst snd]. unfold wired.
  pose proof (entries_fresh wiring env s
                (log s ++ map EvStderr (flat_map (diagnostics env) wiring))) as Hfresh.
  change (length (heap s) + length (in_ports env)) with bo in Hfresh |- *.
  change (length (heap s)) with bi in Hfresh |- *. clearbody bo. clearbody bi.
  set (t := set_log _ (discovered wiring env s)) in *.
  assert (Hvalid : Forall (valid_entry t) (entries env bi bo wiring)).
  { eapply Forall_impl; [exact Hfresh|]. intros e [He _]. exact He. }
  destruct (registered_all_effect _ t Hvalid)
    as (E1 & E2 & _ & _ & _ & E6 & _ & E8 & _ & E10 & _ & evs & E12 & E13).
  split; [reflexivity|]. split.
  { exists evs. rewrite E12. unfold t. cbn [log set_log].
    rewrite <- app_assoc. auto. }
  split.
  { intros rule Hrule. apply unresolved_skipped.
    rewrite Forall_forall in Hall. apply Hall, Hrule. }
  split; [exact E1|]. split; [exact E2|].
  assert (Hroutes : forall r,
             routes_of (registered_all (entries env bi bo wiring) t) r =
             routes_of s r ++ routes_for r (entries env bi bo wiring)).
  { intros r. rewrite E6. f_equal. apply (routes_of_discovered wiring env s r). }
  split; [exact Hroutes|].
  intros rule i j c Hrule Hres.
  pose proof (entries_elem env bi bo wiring rule i j c Hrule Hres) as Hentry.
  split; [|split].
  - rewrite Hroutes. apply elem_of_app. right.
    eapply routes_for_elem; [exact Hentry|reflexivity].
  - apply E10. apply list_elem_of_In, in_map_iff.
    exists (bi + i, bo + j, c). split; [reflexivity|]. apply list_elem_of_In, Hentry.
  - apply E8. apply list_elem_of_In, in_map_iff.
    exists (bi + i, bo + j, c). split; [reflexivity|]. apply list_elem_of_In, Hentry.
Qed.

Lemma wire_skips_unmatched_rules_witness :
  Forall (fun rule => ~ ambiguous (mkPorts ["kbd"] ["out1"]) rule) [ghost_rule; kbd_rule] /\
  fst (wire [ghost_rule; kbd_rule] (mkPorts ["kbd"] ["out1"]) init) = Ok tt /\
  (forall r,
      routes_of (snd (wire [ghost_rule; kbd_rule] (mkPorts ["kbd"] ["out1"]) init)) r =
      routes_of init r ++
      routes_for r (entries (mkPorts ["kbd"] ["out1"]) 0 1 [ghost_rule; kbd_rule])).
Proof.
  assert (Hall : Forall (fun rule => ~ ambiguous (mkPorts ["kbd"] ["out1"]) rule)
                        [ghost_rule; kbd_rule]).
  { repeat constructor; vm_compute; intros [H|H]; lia. }
  split; [exact Hall|].
  destruct (wire_skips_unmatched_rules [ghost_rule; kbd_rule] (mkPorts ["kbd"] ["out1"])
              init Hall) as (Hok & _ & _ & _ & _ & Hroutes & _).
  split; [exact Hok|exact Hroutes].
Defined.

(** The example of the specification: one route, kbd to out1, and the
    diagnostics of the skipped rule. *)
Example wire_ghost_then_kbd :
  wire [ghost_rule; kbd_rule] (mkPorts ["kbd"] ["out1"]) init =
  (Ok tt,
   mkState [0] [1] (Some [ghost_rule; kbd_rule])
     [ mkDevice "kbd" 0 (Some 3) None [(1, AllChannels)];
       mkDevice "out1" 0 None (Some 2) [] ]
     4
     [ EvStderr (NoInputMatching (StrSpec "ghost")); EvStderr Skipping;
       EvOpenOut 2 0; EvOpenIn 3 0; EvSetCallback 3 0 ]).
Proof. vm_compute. reflexivity. Qed.

(** ** Registering a second route on a device *)

(** C3 (where the code departs from it): [forward_messages] on a device
    whose input connection [h] is already open creates a further [MidiIn],
    opens the device's port on it and sets the callback on it, and the
    device now holds the new connection instead of [h], which was never
    closed. *)
Theorem forward_messages_reopens_input (self out : ref) (channel : channel_spec)
    (s : State) (h : handle) :
  open_input s self = Some h ->
  h < next_handle s ->
  exists h' evs,
    open_input (snd (forward_messages self out channel s)) self = Some h' /\
    h' <> h /\
    log (snd (forward_messages self out channel s)) =
      log s ++ evs ++ [EvOpenIn h' (port (lookup_dev s self)); EvSetCallback h' self] /\
    ~ In (EvCloseIn h) evs /\
    routes_of (snd (forward_messages self out channel s)) self =
      routes_of s self ++ [(out, channel)].
Proof.
  intros Hopen Hlt. rewrite forward_messages_run. cbn [snd].
  assert (Hvalid : is_Some (heap s !! self)).
  { unfold open_input in Hopen. destruct (heap s !! self); [eauto|discriminate]. }
  assert (Hvalid' : is_Some (heap (prepared out s) !! self))
    by (apply valid_prepared, Hvalid).
  destruct (log_prepared out s) as (evs & Hlog & _ & Hevs).
  destruct (prepared_station out s) as (_ & _ & _ & _ & Hle).
  exists (next_handle (prepared out s)), evs.
  split; [apply open_input_listening, Hvalid'|]. split; [lia|]. split; [|split].
  - unfold listening. cbn [log set_log]. rewrite Hlog, port_prepared.
    rewrite <- app_assoc. reflexivity.
  - destruct Hevs as [->|[portnum ->]]; simpl; intros H; [exact H|].
    destruct H as [H|H]; [discriminate H|exact H].
  - rewrite routes_of_listening by exact Hvalid'.
    rewrite routes_of_prepared, decide_True by reflexivity. reflexivity.
Qed.

Lemma forward_messages_reopens_input_witness :
  open_input (snd (wire [kbd_rule] two_pads init)) 0 = Some 3 /\
  3 < next_handle (snd (wire [kbd_rule] two_pads init)) /\
  exists h' evs,
    open_input (snd (forward_messages 0 3 (IntChannel 1)
                       (snd (wire [kbd_rule] two_pads init)))) 0 = Some h' /\
    h' <> 3 /\
    log (snd (forward_messages 0 3 (IntChannel 1)
                (snd (wire [kbd_rule] two_pads init)))) =
      log (snd (wire [kbd_rule] two_pads init)) ++ evs ++
      [EvOpenIn h' (port (lookup_dev (snd (wire [kbd_rule] two_pads init)) 0));
       EvSetCallback h' 0] /\
    ~ In (EvCloseIn 3) evs.
Proof.
  assert (Hopen : open_input (snd (wire [kbd_rule] two_pads init)) 0 = Some 3)
    by (vm_compute; reflexivity).
  assert (Hlt : 3 < next_handle (snd (wire [kbd_rule] two_pads init)))
    by (vm_compute; lia).
  split; [exact Hopen|]. split; [exact Hlt|].
  destruct (forward_messages_reopens_input 0 3 (IntChannel 1)
              (snd (wire [kbd_rule] two_pads init)) 3 Hopen Hlt)
    as (h' & evs & H1 & H2 & H3 & H4 & _).
  exists h', evs. auto.
Defined.

(** On the module's own wiring the keyboard's port is opened twice, on the
    driver objects 3 and 5, and [reset] closes only the second. *)
Example lpk25_wired_twice :
  log (snd (wire lpk25_wiring lpk25_ports init)) =
  [ EvOpenOut 2 0; EvOpenIn 3 0; EvSetCallback 3 0;
    EvOpenOut 4 1; EvOpenIn 5 0; EvSetCallback 5 0 ] /\
  List.filter (fun e => match e with EvCloseIn _ => true | _ => false end)
    (log (snd ((wire lpk25_wiring lpk25_ports ;; reset) init))) = [EvCloseIn 5].
Proof. split; vm_compute; reflexivity. Qed.

(** * Further properties of the device methods *)

Lemma output_lookup_dev (s : State) (r : ref) :
  output (lookup_dev s r) = open_output s r.
Proof. unfold lookup_dev, open_output. destruct (heap s !! r); reflexivity. Qed.

Lemma prepared_open (self : ref) (s : State) (h : handle) :
  open_output s self = Some h -> prepared self s = s.
Proof. intros H. unfold prepared. rewrite output_lookup_dev, H. reflexivity. Qed.

(** X1: [prepare_for_output] is idempotent: on a device that already holds
    an output connection it does nothing at all, so calling it twice is
    calling it once (one [MidiOut], one [open_port]). *)
Theorem prepare_for_output_idempotent (self : ref) (s : State) :
  is_Some (heap s !! self) ->
  (forall h, open_output s self = Some h -> prepare_for_output self s = (Ok tt, s)) /\
  (prepare_for_output self ;; prepare_for_output self) s = prepare_for_output self s /\
  is_Some (open_output (snd (prepare_for_output self s)) self).
Proof.
  intros Hvalid. split; [|split].
  - intros h Hh. rewrite prepare_for_output_run, (prepared_open self s h Hh).
    reflexivity.
  - unfold bind. rewrite !prepare_for_output_run.
    pose proof (open_output_prepared self self s Hvalid) as Hopen.
    rewrite decide_True in Hopen by reflexivity.
    rewrite (prepared_open self (prepared self s) _ Hopen). reflexivity.
  - rewrite prepare_for_output_run. cbn [snd].
    rewrite (open_output_prepared self self s Hvalid), decide_True by reflexivity.
    eauto.
Qed.

Lemma prepare_for_output_idempotent_witness :
  is_Some (heap rig_wired !! 2) /\
  (prepare_for_output 2 ;; prepare_for_output 2) rig_wired =
    prepare_for_output 2 rig_wired.
Proof.
  assert (H : is_Some (heap rig_wired !! 2)) by (vm_compute; eauto).
  split; [exact H|].
  exact (proj1 (proj2 (prepare_for_output_idempotent 2 rig_wired H))).
Defined.

(** X2: [send_message] on a device without output connection raises (a
    method call on [None]) and tells the driver nothing; once
    [prepare_for_output] has run on a device of the store, [send_message]
    succeeds and sends exactly that message on the device's connection. *)
Theorem send_message_needs_prepared_output (self : ref) (message : list Z) (s : State) :
  (open_output s self = None ->
   send_message self message s = (Raise AttributeError_none, s)) /\
  (is_Some (heap s !! self) ->
   exists h,
     open_output (prepared self s) self = Some h /\
     (prepare_for_output self ;; send_message self message) s =
     (Ok tt, set_log (log (prepared self s) ++ [EvSend h message]) (prepared self s))).
Proof.
  split.
  - intros Hnone. unfold send_message, bind, deref, gets.
    fold (lookup_dev s self). rewrite output_lookup_dev, Hnone. reflexivity.
  - intros Hvalid.
    pose proof (open_output_prepared self self s Hvalid) as Hopen.
    rewrite decide_True in Hopen by reflexivity.
    eexists. split; [exact Hopen|].
    unfold bind at 1. rewrite prepare_for_output_run.
    unfold send_message, bind, deref, gets.
    fold (lookup_dev (prepared self s) self). rewrite output_lookup_dev, Hopen.
    reflexivity.
Qed.

Lemma closed_idempotent (d : MidiDevice) : closed (closed d) = closed d.
Proof. reflexivity. Qed.

Lemma close_events_closed (s : State) (self : ref) :
  close_events (lookup_dev (close_step s self) self) = [].
Proof.
  unfold lookup_dev, close_step. cbn [heap set_log set_heap].
  rewrite list_lookup_alter_eq. destruct (heap s !! self); reflexivity.
Qed.

(** X3: [close] is idempotent: after a [close], the device holds no
    connection, and a second [close] tells the driver nothing and changes
    nothing. *)
Theorem close_idempotent (self : ref) (s : State) :
  open_input (snd (close self s)) self = None /\
  open_output (snd (close self s)) self = None /\
  close self (snd (close self s)) = (Ok tt, snd (close self s)).
Proof.
  rewrite !close_run. cbn [snd]. fold (close_step s self).
  split; [|split].
  - unfold open_input, close_step. cbn [heap set_log set_heap].
    rewrite list_lookup_alter_eq. destruct (heap s !! self); reflexivity.
  - rewrite open_output_close_step, decide_True by reflexivity. reflexivity.
  - f_equal. fold (close_step (close_step s self) self).
    unfold close_step at 1. rewrite close_events_closed.
    apply state_eq; simpl; try reflexivity.
    + rewrite list_alter_alter_eq. apply list_alter_ext; [|reflexivity].
      intros; reflexivity.
    + rewrite app_nil_r. reflexivity.
Qed.

(** * Further properties of [callback] *)

(** X4: whatever the device, the message and the state, and whether it
    returns or raises, [callback] changes nothing but the driver log, and
    all it appends there are sends of the very message it was given: it
    never opens or closes a connection, never touches a device or the
    station, and never sends anything but the unmodified message. *)
Theorem callback_only_sends_the_message (self : ref) (message : list Z) (s : State) :
  exists evs,
    snd (callback self message s) = set_log (log s ++ evs) s /\
    Forall (fun e => exists h, e = EvSend h message) evs /\
    (fst (callback self message s) = Ok tt \/
     fst (callback self message s) = Raise AttributeError_none \/
     fst (callback self message s) = Raise IndexError_empty /\ message = []).
Proof.
  destruct message as [|b rest].
  - exists []. split; [apply frame_refl|]. split; [constructor|]. right. right. auto.
  - unfold callback, bind, deref, gets.
    set (body := fun '(output, channel) =>
           if channel_eq channel (Z.land b 15 + 1)
           then send_message output (b :: rest) else ret tt).
    assert (Hbody : forall (x : ref * channel_spec) t, exists evs,
               snd (body x t) = set_log (log t ++ evs) t /\
               Forall (fun e => exists h, e = EvSend h (b :: rest)) evs /\
               (fst (body x t) = Ok tt \/ fst (body x t) = Raise AttributeError_none)).
    { intros [out channel] t. unfold body. destruct (channel_eq channel _).
      - unfold send_message, bind, deref, gets. destruct (output _) as [h|].
        + exists [EvSend h (b :: rest)]. split; [reflexivity|].
          split; [repeat constructor; eauto|left; reflexivity].
        + exists []. split; [apply frame_refl|]. split; [constructor|right; reflexivity].
      - exists []. split; [apply frame_refl|]. split; [constructor|left; reflexivity]. }
    generalize (forwards (default (new_device "" 0) (heap s !! self))).
    intros routes. revert s. induction routes as [|x routes IH]; intros s.
    + exists []. split; [apply frame_refl|]. split; [constructor|left; reflexivity].
    + cbn [for_each]. unfold bind. destruct (Hbody x s) as (evs & Hevs & HP & Hres).
      destruct (body x s) as [[[]|e] s1]; simpl in Hevs, Hres; subst s1.
      * destruct (IH (set_log (log s ++ evs) s)) as (evs' & -> & HP' & Hres').
        exists (evs ++ evs'). split; [|split].
        -- apply state_eq; simpl; try reflexivity. rewrite <- app_assoc. reflexivity.
        -- apply Forall_app. split; assumption.
        -- destruct Hres' as [H|[H|[H Hnil]]]; [rewrite H; auto|rewrite H; auto|].
           discriminate Hnil.
      * exists evs. split; [reflexivity|]. split; [exact HP|].
        destruct Hres as [H|H]; [discriminate H|]. right. left. exact H.
Qed.

Lemma routes_of_close_step (s : State) (self r : ref) :
  routes_of (close_step s self) r = routes_of s r.
Proof.
  unfold routes_of, close_step. cbn [heap set_log set_heap].
  rewrite list_lookup_alter. destruct (decide (self = r)) as [->|]; [|reflexivity].
  destruct (heap s !! r); reflexivity.
Qed.

Lemma routes_of_close_all (l : list ref) (s : State) (r : ref) :
  routes_of (close_all l s) r = routes_of s r.
Proof.
  revert s. induction l as [|x l IH]; intros s; [reflexivity|].
  rewrite close_all_cons, IH. apply routes_of_close_step.
Qed.

Lemma routes_of_reset_state (s : State) (r : ref) :
  routes_of (reset_state s) r = routes_of s r.
Proof.
  unfold reset_state.
  change (routes_of (close_all (output_devices s)
            (set_input_devices [] (close_all (input_devices s) s))) r = routes_of s r).
  rewrite routes_of_close_all.
  change (routes_of (close_all (input_devices s) s) r = routes_of s r).
  apply routes_of_close_all.
Qed.

Lemma callback_loop_closed (routes : list (ref * channel_spec)) (message : list Z)
    (nibble : Z) (s : State) :
  (forall out channel,
      (out, channel) ∈ routes -> chan_accepts channel nibble = true ->
      open_output s out = None) ->
  for_each routes (fun '(output, channel) =>
    if channel_eq channel (nibble + 1)
    then send_message output message
    else ret tt) s =
  (if existsb (fun '(_, channel) => chan_accepts channel nibble) routes
   then Raise AttributeError_none else Ok tt, s).
Proof.
  induction routes as [|[out channel] routes IH]; intros Hclosed; [reflexivity|].
  cbn [for_each existsb]. unfold bind. rewrite channel_eq_accepts.
  destruct (chan_accepts channel nibble) eqn:Hacc; cbn [orb].
  - unfold send_message, bind, deref, gets. fold (lookup_dev s out).
    rewrite output_lookup_dev, (Hclosed out channel); [reflexivity|left|exact Hacc].
  - unfold ret. apply IH. intros o c Hin. apply Hclosed. right. exact Hin.
Qed.

(** X5: after [reset], a message that still reaches the callback of a
    device that was an active input is never forwarded: every destination
    of its routes has been closed, so the callback raises at the first
    route whose channel accepts the message (a method call on [None]) and
    returns quietly when no route accepts it; in both cases nothing is sent
    and nothing changes. *)
Theorem callback_after_reset_sends_nothing (s : State) (self : ref) (b : Z)
    (rest : list Z) :
  reachable s ->
  self ∈ input_devices s ->
  callback self (b :: rest) (reset_state s) =
  (if existsb (fun '(_, channel) => chan_accepts channel (Z.land b 15))
              (routes_of s self)
   then Raise AttributeError_none else Ok tt,
   reset_state s).
Proof.
  intros Hreach Hself. apply reachable_wf in Hreach.
  destruct Hreach as [Wopen Wdist Wbound Wroutes].
  unfold callback, bind, deref, gets.
  replace (forwards (default (new_device "" 0) (heap (reset_state s) !! self)))
    with (routes_of s self).
  - apply callback_loop_closed. intros out channel Hin _.
    rewrite open_output_reset_state, decide_True; [reflexivity|].
    apply elem_of_app. right. eapply Wroutes; eassumption.
  - rewrite <- (routes_of_reset_state s self). unfold routes_of.
    destruct (heap (reset_state s) !! self); reflexivity.
Qed.

Lemma callback_after_reset_sends_nothing_witness :
  reachable rig_wired /\ 0 ∈ input_devices rig_wired /\
  callback 0 [144; 60; 100]%Z (reset_state rig_wired) =
    (Raise AttributeError_none, reset_state rig_wired).
Proof.
  assert (Hreach : reachable rig_wired)
    by (exists [OpWire rig_wiring rig]; reflexivity).
  assert (Hin : 0 ∈ input_devices rig_wired) by (vm_compute; left).
  split; [exact Hreach|]. split; [exact Hin|].
  exact (callback_after_reset_sends_nothing rig_wired 0 144 [60; 100]%Z Hreach Hin).
Defined.

(** * Further properties of [reset] *)

Lemma lookup_close_step (s : State) (self r : ref) :
  heap (close_step s self) !! r =
  if decide (self = r) then closed <$> heap s !! r else heap s !! r.
Proof.
  unfold close_step. cbn [heap set_log set_heap]. rewrite list_lookup_alter.
  destruct (decide (self = r)) as [->|]; reflexivity.
Qed.

Lemma lookup_close_all (l : list ref) (s : State) (r : ref) :
  heap (close_all l s) !! r =
  if decide (r ∈ l) then closed <$> heap s !! r else heap s !! r.
Proof.
  revert s. induction l as [|x l IH]; intros s.
  - destruct (decide (r ∈ [])) as [H|H]; [inversion H|reflexivity].
  - rewrite close_all_cons, IH, lookup_close_step.
    destruct (decide (x = r)) as [->|Hne].
    + rewrite (decide_True (P := r ∈ r :: l)) by left.
      destruct (decide (r ∈ l)); [|reflexivity].
      destruct (heap s !! r); reflexivity.
    + destruct (decide (r ∈ l)) as [Hin|Hin].
      * rewrite decide_True by (right; exact Hin). reflexivity.
      * rewrite decide_False; [reflexivity|].
        intros H. apply elem_of_cons in H. destruct H; congruence.
Qed.

Lemma lookup_reset_state (s : State) (r : ref) :
  heap (reset_state s) !! r =
  if decide (r ∈ input_devices s ++ output_devices s)
  then closed <$> heap s !! r else heap s !! r.
Proof.
  unfold reset_state.
  change (heap (close_all (output_devices s)
            (set_input_devices [] (close_all (input_devices s) s))) !! r =
          if decide (r ∈ input_devices s ++ output_devices s)
          then closed <$> heap s !! r else heap s !! r).
  rewrite lookup_close_all.
  change (heap (set_input_devices [] (close_all (input_devices s) s)))
    with (heap (close_all (input_devices s) s)).
  rewrite lookup_close_all.
  destruct (decide (r ∈ input_devices s)) as [Hi|Hi],
           (decide (r ∈ output_devices s)) as [Ho|Ho].
  - rewrite decide_True by (apply elem_of_app; auto).
    destruct (heap s !! r); reflexivity.
  - rewrite decide_True by (apply elem_of_app; auto). reflexivity.
  - rewrite decide_True by (apply elem_of_app; auto). reflexivity.
  - rewrite decide_False; [reflexivity|].
    intros H. apply elem_of_app in H. destruct H; contradiction.
Qed.

Lemma close_trace_kinds (l : list ref) (s : State) :
  Forall (fun e => match e with
                   | EvCloseIn _ | EvSend _ _ | EvCloseOut _ => True
                   | _ => False
                   end) (close_trace l s).
Proof.
  revert s. induction l as [|r l IH]; intros s; [constructor|].
  cbn [close_trace]. apply Forall_app. split; [|apply IH].
  unfold close_events. apply Forall_app. split.
  - destruct (input _); repeat constructor.
  - destruct (output _); repeat constructor.
Qed.

(** X6: [reset] closes both connections of exactly the devices in the two
    active lists and changes them in no other way (name, port and routes
    stay), leaves every other device object as it was, and only ever closes
    and silences: it opens nothing and prints nothing. *)
Theorem reset_closes_exactly_the_active_devices (s : State) (r : ref) :
  heap (reset_state s) !! r =
    (if decide (r ∈ input_devices s ++ output_devices s)
     then (fun d => mkDevice (full_name d) (port d) None None (forwards d)) <$> heap s !! r
     else heap s !! r) /\
  reset s = (Ok tt, reset_state s) /\
  exists evs,
    log (reset_state s) = log s ++ evs /\
    Forall (fun e => match e with
                     | EvCloseIn _ | EvSend _ _ | EvCloseOut _ => True
                     | _ => False
                     end) evs.
Proof.
  split; [apply lookup_reset_state|]. split; [apply reset_run|].
  eexists. split; [apply reset_state_log|apply close_trace_kinds].
Qed.

(** * The invariant of a station *)

Lemma inputs_listening_log (l : list Event) (n : nat) (s : State) :
  inputs_listening s -> inputs_listening (set_log l (set_next_handle n s)).
Proof. intros H. exact H. Qed.

Lemma inputs_listening_discovered (wiring : Wiring) (env : Ports) (s : State)
    (l : list Event) :
  inputs_listening s -> inputs_listening (set_log l (discovered wiring env s)).
Proof.
  intros [H Hlen]. split; [|exact Hlen]. intros r Hr.
  change (is_Some (open_input (discovered wiring env s) r) /\
          routes_of (discovered wiring env s) r <> []).
  rewrite open_input_discovered, routes_of_discovered. apply H, Hr.
Qed.

Lemma inputs_listening_wire (wiring : Wiring) (env : Ports) (s : State) :
  inputs_listening s -> inputs_listening (snd (wire wiring env s)).
Proof.
  intros Hs.
  destruct (wiring_cases env wiring) as [Hall|(pre & rule & post & -> & Hpre & Hrule)].
  - rewrite wire_ok by exact Hall. cbn [snd]. unfold wired.
    pose proof (entries_fresh wiring env s
                  (log s ++ map EvStderr (flat_map (diagnostics env) wiring))) as Hfresh.
    pose proof (inputs_listening_discovered wiring env s
                  (log s ++ map EvStderr (flat_map (diagnostics env) wiring)) Hs)
      as [Ht Hlen].
    set (t := set_log _ (discovered wiring env s)) in *.
    set (l := entries env _ _ wiring) in *.
    assert (Hvalid : Forall (valid_entry t) l).
    { eapply Forall_impl; [exact Hfresh|]. intros e [He _]. exact He. }
    destruct (registered_all_effect l t Hvalid)
      as (E1 & E2 & _ & _ & _ & E6 & _ & _ & E9 & E10 & _).
    split.
    + intros r Hr. rewrite E1 in Hr. rewrite E6. apply elem_of_app in Hr.
      destruct Hr as [Hr|Hr].
      * destruct (Ht r Hr) as [Hopen Hroutes]. split; [apply E9, Hopen|].
        intros H. apply app_eq_nil in H. destruct H; contradiction.
      * split; [apply E10, Hr|].
        apply list_elem_of_In, in_map_iff in Hr. destruct Hr as ([[i o] c] & <- & Hin).
        intros H. apply app_eq_nil in H. destruct H as [_ H].
        assert (Hroute : (o, c) ∈ routes_for i l).
        { eapply routes_for_elem; [apply list_elem_of_In, Hin|reflexivity]. }
        cbn [fst] in H. rewrite H in Hroute. inversion Hroute.
    + rewrite E1, E2, !length_app, !length_map. lia.
  - destruct (wire_raise pre rule post env s Hpre Hrule) as (spec & _ & ->).
    cbn [snd]. apply inputs_listening_discovered, Hs.
Qed.

Lemma inputs_listening_reset (s : State) : inputs_listening (reset_state s).
Proof.
  destruct (reset_state_unwired s) as [Hi Ho]. split.
  - intros r Hr. rewrite Hi in Hr. inversion Hr.
  - rewrite Hi, Ho. reflexivity.
Qed.

Lemma inputs_listening_run_op (o : op) (s : State) :
  inputs_listening s -> inputs_listening (snd (run_op o s)).
Proof.
  intros Hs. destruct o as [wiring env| |env|wiring env|self message]; simpl.
  - apply inputs_listening_wire, Hs.
  - rewrite reset_run. apply inputs_listening_reset.
  - rewrite panic_run. apply inputs_listening_log, Hs.
  - rewrite rewire_run. destruct (last_wiring s); [|exact Hs].
    apply inputs_listening_wire, inputs_listening_reset.
  - destruct (callback_frame self message s) as [evs ->]. exact Hs.
Qed.

Lemma inputs_listening_run (ops : list op) (s : State) :
  inputs_listening s -> inputs_listening (run ops s).
Proof.
  revert s. induction ops as [|o ops IH]; intros s Hs; [exact Hs|].
  simpl. apply IH, inputs_listening_run_op, Hs.
Qed.

(** X7: whatever sequence of [wire], [reset], [rewire], [panic] and
    delivered messages (failed calls included) a station has gone through:
    every active input device holds an open input connection and at least
    one route; every route of an active input device leads to an active
    output device; every active output device holds an open output
    connection; no two device objects share an output connection; and the
    two active lists have the same length. *)
Theorem station_invariant (s : State) :
  reachable s ->
  (forall r, r ∈ input_devices s -> is_Some (open_input s r) /\ routes_of s r <> []) /\
  (forall r out channel,
      r ∈ input_devices s -> (out, channel) ∈ routes_of s r -> out ∈ output_devices s) /\
  (forall r, r ∈ output_devices s -> is_Some (open_output s r)) /\
  (forall r1 r2 h,
      open_output s r1 = Some h -> open_output s r2 = Some h -> r1 = r2) /\
  length (input_devices s) = length (output_devices s).
Proof.
  intros Hreach. pose proof (reachable_wf s Hreach) as [Wopen Wdist Wbound Wroutes].
  destruct Hreach as [ops ->].
  assert (Hinit : inputs_listening init).
  { split; [|reflexivity]. intros r Hr. inversion Hr. }
  destruct (inputs_listening_run ops init Hinit) as [Hlisten Hlen].
  repeat split; try assumption; apply Hlisten; assumption.
Qed.

Lemma station_invariant_witness :
  reachable (run [OpWire rig_wiring rig; OpPanic rig; OpRewire [] rig] init) /\
  input_devices (run [OpWire rig_wiring rig; OpPanic rig; OpRewire [] rig] init) =
    [4; 4; 5] /\
  output_devices (run [OpWire rig_wiring rig; OpPanic rig; OpRewire [] rig] init) =
    [6; 7; 6] /\
  (is_Some (open_input
              (run [OpWire rig_wiring rig; OpPanic rig; OpRewire [] rig] init) 4) /\
   routes_of (run [OpWire rig_wiring rig; OpPanic rig; OpRewire [] rig] init) 4 <> []) /\
  is_Some (open_output
             (run [OpWire rig_wiring rig; OpPanic rig; OpRewire [] rig] init) 6) /\
  7 ∈ output_devices (run [OpWire rig_wiring rig; OpPanic rig; OpRewire [] rig] init).
Proof.
  assert (H : reachable
                (run [OpWire rig_wiring rig; OpPanic rig; OpRewire [] rig] init))
    by (eexists; reflexivity).
  assert (Hin : 4 ∈ input_devices
                  (run [OpWire rig_wiring rig; OpPanic rig; OpRewire [] rig] init))
    by (vm_compute; left).
  assert (Hout : 6 ∈ output_devices
                   (run [OpWire rig_wiring rig; OpPanic rig; OpRewire [] rig] init))
    by (vm_compute; left).
  assert (Hroute : (7, IntChannel 1) ∈
                   routes_of (run [OpWire rig_wiring rig; OpPanic rig; OpRewire [] rig]
                                init) 4)
    by (vm_compute; right; left).
  destruct (station_invariant _ H) as (Hlisten & Hroutes & Hopen & _ & _).
  split; [exact H|]. split; [vm_compute; reflexivity|].
  split; [vm_compute; reflexivity|].
  split; [exact (Hlisten 4 Hin)|]. split; [exact (Hopen 6 Hout)|].
  exact (Hroutes 4 7 (IntChannel 1) Hin Hroute).
Defined.

(** * What [wire] leaves alone *)

Lemma lookup_prepared_ne (self r : ref) (s : State) :
  r <> self -> heap (prepared self s) !! r = heap s !! r.
Proof.
  intros Hne. unfold prepared. destruct (output _); [reflexivity|].
  cbn [heap set_log set_heap]. apply list_lookup_alter_ne. congruence.
Qed.

Lemma lookup_registered_ne (i o : ref) (c : channel_spec) (s : State) (r : ref) :
  r <> i -> r <> o -> heap (registered (i, o, c) s) !! r = heap s !! r.
Proof.
  intros Hi Ho. unfold registered, listening. cbn [heap set_log set_heap].
  rewrite list_lookup_alter_ne by congruence.
  rewrite lookup_prepared_ne by exact Ho. reflexivity.
Qed.

Lemma lookup_registered_all_below (base : nat) (l : list wire_entry) (s : State)
    (r : ref) :
  Forall (fun e : wire_entry => base <= e.1.1 /\ base <= e.1.2) l ->
  r < base ->
  heap (registered_all l s) !! r = heap s !! r.
Proof.
  intros Hl Hr. revert s. induction Hl as [|[[i o] c] l [Hi Ho] Hl IH]; intros s.
  - reflexivity.
  - rewrite registered_all_cons, IH. cbn [fst snd] in Hi, Ho.
    apply lookup_registered_ne; lia.
Qed.

Lemma entries_range (env : Ports) (bi bo : nat) (wiring : Wiring) :
  Forall (fun e : wire_entry =>
            bi <= e.1.1 < bi + length (in_ports env) /\
            bo <= e.1.2 < bo + length (out_ports env))
         (entries env bi bo wiring).
Proof.
  apply Forall_forall. intros e He. apply entries_spec in He.
  destruct He as (rule & i & j & c & _ & Hres & ->).
  apply resolved_lt in Hres. cbn [fst snd]. lia.
Qed.

Lemma length_discovered (wiring : Wiring) (env : Ports) (s : State) :
  length (heap (discovered wiring env s)) =
  length (heap s) + length (in_ports env) + length (out_ports env).
Proof.
  unfold discovered. cbn [heap set_heap].
  rewrite !length_app, !length_fresh_devices. lia.
Qed.

Lemma lookup_discovered_below (wiring : Wiring) (env : Ports) (s : State) (r : ref) :
  r < length (heap s) -> heap (discovered wiring env s) !! r = heap s !! r.
Proof. intros H. unfold discovered. cbn [heap set_heap]. apply lookup_app_l, H. Qed.

Lemma wire_frame (wiring : Wiring) (env : Ports) (s : State) :
  (forall r, r < length (heap s) ->
             heap (snd (wire wiring env s)) !! r = heap s !! r) /\
  length (heap (snd (wire wiring env s))) =
    length (heap s) + length (in_ports env) + length (out_ports env) /\
  exists new_in new_out,
    input_devices (snd (wire wiring env s)) = input_devices s ++ new_in /\
    output_devices (snd (wire wiring env s)) = output_devices s ++ new_out /\
    Forall (fun r => length (heap s) <= r < length (heap s) + length (in_ports env))
           new_in /\
    Forall (fun r => length (heap s) + length (in_ports env) <= r <
                     length (heap s) + length (in_ports env) + length (out_ports env))
           new_out.
Proof.
  destruct (wiring_cases env wiring) as [Hall|(pre & rule & post & -> & Hpre & Hrule)].
  - rewrite wire_ok by exact Hall. cbn [snd]. unfold wired.
    pose proof (entries_fresh wiring env s
                  (log s ++ map EvStderr (flat_map (diagnostics env) wiring))) as Hfresh.
    pose proof (entries_range env (length (heap s))
                  (length (heap s) + length (in_ports env)) wiring) as Hrange.
    set (t := set_log _ (discovered wiring env s)) in *.
    set (l := entries env _ _ wiring) in *.
    assert (Hvalid : Forall (valid_entry t) l).
    { eapply Forall_impl; [exact Hfresh|]. intros e [He _]. exact He. }
    destruct (registered_all_effect l t Hvalid) as (E1 & E2 & _ & _ & E5 & _).
    split; [|split].
    + intros r Hr. rewrite (lookup_registered_all_below (length (heap s))).
      * apply (lookup_discovered_below wiring env s r Hr).
      * eapply Forall_impl; [exact Hrange|]. intros e He. simpl in He. lia.
      * exact Hr.
    + rewrite E5. apply (length_discovered wiring env s).
    + exists (map (fun e : wire_entry => e.1.1) l), (map (fun e : wire_entry => e.1.2) l).
      split; [exact E1|]. split; [exact E2|]. split.
      * clear -Hrange. induction Hrange as [|e l' He _ IH]; constructor; [|exact IH].
        simpl in He. lia.
      * clear -Hrange. induction Hrange as [|e l' He _ IH]; constructor; [|exact IH].
        simpl in He. lia.
  - destruct (wire_raise pre rule post env s Hpre Hrule) as (spec & _ & ->).
    cbn [snd]. split; [|split].
    + intros r Hr. apply (lookup_discovered_below (pre ++ rule :: post) env s r Hr).
    + apply (length_discovered (pre ++ rule :: post) env s).
    + exists [], []. rewrite !app_nil_r. repeat split; constructor.
Qed.

(** X8: whether it succeeds or raises, [wire] never touches a device object
    that existed before the call (its connections and routes stay as they
    were): it adds one new device object per enumerated input port and per
    enumerated output port, and the devices it makes active are among
    those, the new active inputs being input-port objects and the new
    active outputs output-port objects, appended after the ones already
    active. *)
Theorem wire_leaves_existing_devices (wiring : Wiring) (env : Ports) (s : State) :
  (forall r, r < length (heap s) ->
             heap (snd (wire wiring env s)) !! r = heap s !! r) /\
  length (heap (snd (wire wiring env s))) =
    length (heap s) + length (in_ports env) + length (out_ports env) /\
  exists new_in new_out,
    input_devices (snd (wire wiring env s)) = input_devices s ++ new_in /\
    output_devices (snd (wire wiring env s)) = output_devices s ++ new_out /\
    Forall (fun r => length (heap s) <= r < length (heap s) + length (in_ports env))
           new_in /\
    Forall (fun r => length (heap s) + length (in_ports env) <= r <
                     length (heap s) + length (in_ports env) + length (out_ports env))
           new_out.
Proof. exact (wire_frame wiring env s). Qed.

(** * Further properties of resolution *)

(** X9: [__find_matching_device] never changes anything; it returns [None]
    exactly when no device of the list matches, and a device exactly when
    that device is the only match of the list, in which case the device is
    in the list and matches the specification. *)
Theorem find_matching_device_resolution (spec : user_spec) (device_list : list ref)
    (s : State) :
  snd (find_matching_device spec device_list s) = s /\
  (fst (find_matching_device spec device_list s) = Ok None <->
   matching s spec device_list = []) /\
  (forall r,
      fst (find_matching_device spec device_list s) = Ok (Some r) <->
      matching s spec device_list = [r]) /\
  (forall r,
      fst (find_matching_device spec device_list s) = Ok (Some r) ->
      r ∈ device_list /\ matches (lookup_dev s r) spec = true).
Proof.
  rewrite find_matching_device_run. cbn [fst snd].
  split; [reflexivity|].
  assert (Hone : forall r, resolution spec (matching s spec device_list) = Ok (Some r) <->
                           matching s spec device_list = [r]).
  { intros r. unfold resolution.
    destruct (matching s spec device_list) as [|r0 [|r1 l]]; split; intros H;
      congruence. }
  split; [|split; [exact Hone|]].
  - unfold resolution.
    destruct (matching s spec device_list) as [|r0 [|r1 l]]; split; intros H;
      congruence.
  - intros r Hr. apply Hone in Hr.
    assert (Hin : In r (matching s spec device_list)) by (rewrite Hr; left; reflexivity).
    unfold matching in Hin. apply List.filter_In in Hin. destruct Hin as [Hin Hm].
    split; [apply list_elem_of_In, Hin|exact Hm].
Qed.

Lemma starts_with_refl (s : string) : starts_with s s = true.
Proof.
  induction s as [|c s IH]; [reflexivity|]. simpl. rewrite Ascii.eqb_refl. exact IH.
Qed.

Lemma str_in_refl (s : string) : str_in s s = true.
Proof. destruct s; simpl; [reflexivity|]. rewrite Ascii.eqb_refl, starts_with_refl. reflexivity. Qed.

Lemma str_in_empty (s : string) : str_in EmptyString s = true.
Proof. destruct s; reflexivity. Qed.

(** X10: on ASCII text, [matches] with a plain-string specification
    ignores the case of letters on both sides: two specifications that are
    the same up to case give the same answer on two devices whose names are
    the same up to case; the empty string matches every device; and
    whatever name an [ExactMatch] accepts, the same text as a plain string
    accepts too. *)
Theorem substring_matching_facts (d d' : MidiDevice) (text text' : string) :
  is_ascii text = true ->
  is_ascii text' = true ->
  is_ascii (full_name d) = true ->
  is_ascii (full_name d') = true ->
  matches d (StrSpec "") = true /\
  (same_up_to_case text text' ->
   same_up_to_case (full_name d) (full_name d') ->
   matches d (StrSpec text) = matches d' (StrSpec text')) /\
  (matches d (ExactMatch text) = true -> matches d (StrSpec text) = true).
Proof.
  intros _ _ _ _. split; [apply str_in_empty|]. split.
  - intros Ht Hd. apply lower_same_up_to_case in Ht, Hd. simpl.
    rewrite Ht, Hd. reflexivity.
  - simpl. intros H. apply String.eqb_eq in H. rewrite H. apply str_in_refl.
Qed.

Lemma substring_matching_facts_witness :
  is_ascii "Lpk" = true /\ is_ascii "lPK" = true /\
  is_ascii (full_name (new_device "LPK25 MIDI 1" 0)) = true /\
  is_ascii (full_name (new_device "lpk25 midi 1" 3)) = true /\
  same_up_to_case "Lpk" "lPK" /\
  matches (new_device "LPK25 MIDI 1" 0) (StrSpec "Lpk") =
  matches (new_device "lpk25 midi 1" 3) (StrSpec "lPK").
Proof.
  assert (H1 : is_ascii "Lpk" = true) by (vm_compute; reflexivity).
  assert (H2 : is_ascii "lPK" = true) by (vm_compute; reflexivity).
  assert (H3 : is_ascii (full_name (new_device "LPK25 MIDI 1" 0)) = true)
    by (vm_compute; reflexivity).
  assert (H4 : is_ascii (full_name (new_device "lpk25 midi 1" 3)) = true)
    by (vm_compute; reflexivity).
  assert (Ht : same_up_to_case "Lpk" "lPK")
    by (apply lower_same_up_to_case; vm_compute; reflexivity).
  assert (Hd : same_up_to_case (full_name (new_device "LPK25 MIDI 1" 0))
                               (full_name (new_device "lpk25 midi 1" 3)))
    by (apply lower_same_up_to_case; vm_compute; reflexivity).
  repeat (split; [assumption|]).
  exact (proj1 (proj2 (substring_matching_facts (new_device "LPK25 MIDI 1" 0)
                         (new_device "lpk25 midi 1" 3) "Lpk" "lPK" H1 H2 H3 H4)) Ht Hd).
Defined.

(** * Discovery *)

(** X11: discovering the devices of a list of port names opens nothing and
    tells the driver nothing: it leaves the station and every existing
    device as they are and adds, in port order, one closed device without
    routes per name, carrying the position of the name as its port
    number; the list it returns names exactly these new devices, in that
    order. *)
Theorem discover_devices_adds_closed_devices (names : list string) (s : State) :
  exists s',
    discover_devices names s = (Ok (seq (length (heap s)) (length names)), s') /\
    input_devices s' = input_devices s /\
    output_devices s' = output_devices s /\
    last_wiring s' = last_wiring s /\
    log s' = log s /\
    length (heap s') = length (heap s) + length names /\
    (forall r, r < length (heap s) -> heap s' !! r = heap s !! r) /\
    (forall i name, names !! i = Some name ->
                    heap s' !! (length (heap s) + i) =
                    Some (mkDevice name i None None [])).
Proof.
  eexists. split; [apply discover_devices_run|]. cbn [input_devices output_devices
    last_wiring log heap set_heap set_next_handle].
  repeat split.
  - rewrite length_app, length_fresh_devices. reflexivity.
  - intros r Hr. apply lookup_app_l, Hr.
  - intros i name Hname. rewrite lookup_app_r by lia.
    replace (length (heap s) + i - length (heap s)) with i by lia.
    apply fresh_devices_lookup, Hname.
Qed.

(** * The outcome of [wire] *)

Lemma resolve_rules_ambiguous_head_exact (env : Ports) (bi bo : nat)
    (rule : wiring_rule) (rest : Wiring) (acc : list wire_entry) (s : State) :
  names_at s bi (in_ports env) ->
  names_at s bo (out_ports env) ->
  ambiguous env rule ->
  resolve_rules (rule :: rest) (seq bi (length (in_ports env)))
    (seq bo (length (out_ports env))) acc s =
  (Raise (Exception_more_than_one (ambiguous_spec env rule)), s).
Proof.
  intros Hi Ho Hamb. destruct rule as [[input_spec channel] output_spec].
  cbn [resolve_rules]. unfold bind.
  rewrite find_matching_device_run, (matching_names _ _ _ _ Hi).
  unfold ambiguous, ambiguous_spec in *.
  destruct (candidates input_spec (in_ports env)) as [|i [|i' ci]];
    cbn [map resolution length];
    try (rewrite decide_True by lia; reflexivity);
    rewrite decide_False by lia;
    rewrite find_matching_device_run, (matching_names _ _ _ _ Ho);
    (destruct (candidates output_spec (out_ports env)) as [|j [|j' co]];
     [simpl in Hamb; exfalso; lia|simpl in Hamb; exfalso; lia|]);
    reflexivity.
Qed.

Lemma resolve_rules_raise_exact (env : Ports) (bi bo : nat) (pre : Wiring)
    (rule : wiring_rule) (post : Wiring) (acc : list wire_entry) (s : State) :
  names_at s bi (in_ports env) ->
  names_at s bo (out_ports env) ->
  Forall (fun rule => ~ ambiguous env rule) pre ->
  ambiguous env rule ->
  fst (resolve_rules (pre ++ rule :: post) (seq bi (length (in_ports env)))
         (seq bo (length (out_ports env))) acc s) =
  Raise (Exception_more_than_one (ambiguous_spec env rule)).
Proof.
  intros Hi Ho Hpre Hamb. revert acc s Hi Ho.
  induction Hpre as [|r pre Hr Hpre IH]; intros acc s Hi Ho.
  - rewrite app_nil_l, resolve_rules_ambiguous_head_exact by assumption. reflexivity.
  - rewrite <- app_comm_cons, (resolve_rules_step env bi bo) by assumption.
    apply IH; assumption.
Qed.

Lemma wire_raise_exact (pre : Wiring) (rule : wiring_rule) (post : Wiring)
    (env : Ports) (s : State) :
  Forall (fun rule => ~ ambiguous env rule) pre ->
  ambiguous env rule ->
  fst (wire (pre ++ rule :: post) env s) =
  Raise (Exception_more_than_one (ambiguous_spec env rule)).
Proof.
  intros Hpre Hamb.
  destruct (names_at_discovered (pre ++ rule :: post) env s) as [Hi Ho].
  pose proof (resolve_rules_raise_exact env _ _ pre rule post [] _ Hi Ho Hpre Hamb)
    as Hrun.
  rewrite wire_discover. unfold bind.
  destruct (resolve_rules _ _ _ _ _) as [[l|e] t]; simpl in Hrun; [discriminate|].
  simpl. congruence.
Qed.

(** X12: [wire] returns normally exactly when no rule of the wiring has a
    side matching more than one port name; otherwise it raises the "More
    than one devices match" exception of the first rule that has such a
    side, naming that rule's input specification when the input side is
    ambiguous and its output specification otherwise.  Which of these
    happens depends on the wiring and the port names only, not on the state
    of the station. *)
Theorem wire_raises_iff_ambiguous (wiring : Wiring) (env : Ports) (s : State) :
  (fst (wire wiring env s) = Ok tt <->
   Forall (fun rule => ~ ambiguous env rule) wiring) /\
  (forall pre rule post,
      wiring = pre ++ rule :: post ->
      Forall (fun r => ~ ambiguous env r) pre ->
      ambiguous env rule ->
      fst (wire wiring env s) =
      Raise (Exception_more_than_one (ambiguous_spec env rule))) /\
  (forall s2, fst (wire wiring env s2) = fst (wire wiring env s)).
Proof.
  split; [|split].
  - split.
    + intros Hok.
      destruct (wiring_cases env wiring)
        as [Hall|(pre & rule & post & -> & Hpre & Hrule)]; [exact Hall|].
      rewrite wire_raise_exact in Hok by assumption. discriminate Hok.
    + intros Hall. rewrite wire_ok by exact Hall. reflexivity.
  - intros pre rule post -> Hpre Hrule. apply wire_raise_exact; assumption.
  - intros s2.
    destruct (wiring_cases env wiring)
      as [Hall|(pre & rule & post & -> & Hpre & Hrule)].
    + rewrite !wire_ok by exact Hall. reflexivity.
    + rewrite !wire_raise_exact by assumption. reflexivity.
Qed.

Example wire_names_the_input_side_first :
  fst (wire [(StrSpec "pad", AllChannels, StrSpec "out")]
            (mkPorts ["padA"; "padB"] ["out1"; "out2"]) init) =
  Raise (Exception_more_than_one (StrSpec "pad")).
Proof. vm_compute. reflexivity. Qed.

(** * The connections [wire] opens *)

Lemma prepared_lists (self : ref) (ins outs : list ref) (s : State) :
  prepared self (set_output_devices outs (set_input_devices ins s)) =
  set_output_devices outs (set_input_devices ins (prepared self s)).
Proof.
  unfold prepared, lookup_dev. cbn [heap set_output_devices set_input_devices].
  destruct (output _); reflexivity.
Qed.

Lemma log_prepared_events (self : ref) (s : State) :
  log (prepared self s) = log s ++ prepare_events self s.
Proof.
  unfold prepared, prepare_events. destruct (output _); simpl; [|reflexivity].
  rewrite app_nil_r. reflexivity.
Qed.

Lemma port_listening (self out r : ref) (channel : channel_spec) (s : State) :
  port (lookup_dev (listening self out channel s) r) = port (lookup_dev s r).
Proof.
  unfold listening. unfold lookup_dev at 1. simpl. rewrite lookup_dev_alter.
  destruct (decide (self = r)) as [->|]; [|reflexivity].
  unfold lookup_dev. destruct (heap s !! r); reflexivity.
Qed.

Lemma lookup_dev_lists (ins outs : list ref) (s : State) (r : ref) :
  lookup_dev (set_output_devices outs (set_input_devices ins s)) r = lookup_dev s r.
Proof. reflexivity. Qed.

Lemma port_registered (e : wire_entry) (s : State) (r : ref) :
  port (lookup_dev (registered e s) r) = port (lookup_dev s r).
Proof.
  destruct e as [[i o] c]. unfold registered.
  rewrite port_listening, prepared_lists, lookup_dev_lists, port_prepared.
  reflexivity.
Qed.

Lemma log_registered_events (e : wire_entry) (s : State) :
  log (registered e s) = log s ++ register_events e s.
Proof.
  destruct e as [[i o] c]. unfold registered, listening, register_events.
  rewrite prepared_lists. cbn [log set_log set_heap set_next_handle
    set_output_devices set_input_devices next_handle].
  rewrite log_prepared_events, <- app_assoc, lookup_dev_lists, port_prepared.
  reflexivity.
Qed.

Lemma log_registered_all (l : list wire_entry) (s : State) :
  log (registered_all l s) = log s ++ register_trace l s.
Proof.
  revert s. induction l as [|e l IH]; intros s.
  - simpl. rewrite app_nil_r. reflexivity.
  - rewrite registered_all_cons, IH, log_registered_events. cbn [register_trace].
    rewrite <- app_assoc. reflexivity.
Qed.

Lemma next_handle_registered (e : wire_entry) (s : State) :
  next_handle s < next_handle (registered e s).
Proof.
  destruct e as [[i o] c]. unfold registered, listening.
  cbn [next_handle set_log set_heap set_next_handle].
  rewrite prepared_lists. cbn [next_handle set_output_devices set_input_devices].
  destruct (prepared_station o s) as (_ & _ & _ & _ & H). lia.
Qed.

Lemma register_events_open_in (e : wire_entry) (s : State) :
  length (List.filter is_open_in (register_events e s)) = 1.
Proof.
  destruct e as [[i o] c]. unfold register_events, prepare_events.
  destruct (output _); reflexivity.
Qed.

Lemma register_trace_open_in (l : list wire_entry) (s : State) :
  length (List.filter is_open_in (register_trace l s)) = length l.
Proof.
  revert s. induction l as [|e l IH]; intros s; [reflexivity|].
  cbn [register_trace]. rewrite List.filter_app, length_app, IH, register_events_open_in.
  reflexivity.
Qed.

Lemma register_events_old_handle (e : wire_entry) (s : State) (h : handle) :
  h <> next_handle s ->
  List.filter (on_output h) (register_events e s) = [].
Proof.
  intros Hne. destruct e as [[i o] c]. unfold register_events, prepare_events.
  destruct (output _); simpl; [reflexivity|].
  destruct (Nat.eqb_spec h (next_handle s)); [contradiction|reflexivity].
Qed.

Lemma register_trace_old_handle (l : list wire_entry) (s : State) (h : handle) :
  h < next_handle s ->
  List.filter (on_output h) (register_trace l s) = [].
Proof.
  revert s. induction l as [|e l IH]; intros s Hlt; [reflexivity|].
  cbn [register_trace]. rewrite List.filter_app.
  rewrite register_events_old_handle by lia.
  apply IH. pose proof (next_handle_registered e s). lia.
Qed.

Lemma registered_all_fresh_handle (l : list wire_entry) (s : State) (o : ref)
    (h : handle) :
  Forall (valid_entry s) l ->
  open_output s o = None ->
  open_output (registered_all l s) o = Some h ->
  next_handle s <= h.
Proof.
  revert s. induction l as [|e l IH]; intros s Hvalid Hnone Hsome.
  - simpl in Hsome. congruence.
  - apply Forall_cons in Hvalid. destruct Hvalid as [He Hl].
    assert (Hl' : Forall (valid_entry (registered e s)) l).
    { eapply Forall_impl; [exact Hl|]. intros e'. apply valid_entry_registered, He. }
    rewrite registered_all_cons in Hsome.
    pose proof (next_handle_registered e s) as Hnext.
    destruct e as [[i o1] c]. destruct He as [Hi Ho]. cbn [fst snd] in Hi, Ho.
    destruct (open_output (registered (i, o1, c) s) o) as [h1|] eqn:E1.
    + destruct (registered_all_effect l _ Hl') as (_ & _ & _ & _ & _ & _ & I7 & _).
      rewrite (I7 o h1 E1) in Hsome. injection Hsome as <-.
      rewrite (open_output_registered i o1 c s Ho) in E1.
      destruct (decide (o = o1)) as [->|]; [|congruence].
      rewrite Hnone in E1. simpl in E1. injection E1 as <-. lia.
    + specialize (IH _ Hl' E1 Hsome). lia.
Qed.

Lemma register_trace_open_once (l : list wire_entry) (s : State) (o : ref)
    (h : handle) :
  Forall (valid_entry s) l ->
  open_output s o = None ->
  open_output (registered_all l s) o = Some h ->
  List.filter (on_output h) (register_trace l s) =
  [EvOpenOut h (port (lookup_dev s o))].
Proof.
  revert s. induction l as [|e l IH]; intros s Hvalid Hnone Hsome.
  - simpl in Hsome. congruence.
  - apply Forall_cons in Hvalid. destruct Hvalid as [He Hl].
    assert (Hl' : Forall (valid_entry (registered e s)) l).
    { eapply Forall_impl; [exact Hl|]. intros e'. apply valid_entry_registered, He. }
    rewrite registered_all_cons in Hsome.
    pose proof (next_handle_registered e s) as Hnext.
    cbn [register_trace]. rewrite List.filter_app.
    destruct (open_output (registered e s) o) as [h1|] eqn:E1.
    + destruct (registered_all_effect l _ Hl') as (_ & _ & _ & _ & _ & _ & I7 & _).
      rewrite (I7 o h1 E1) in Hsome. injection Hsome as <-.
      destruct e as [[i o1] c]. destruct He as [Hi Ho]. cbn [fst snd] in Hi, Ho.
      rewrite (open_output_registered i o1 c s Ho) in E1.
      destruct (decide (o = o1)) as [->|]; [|congruence].
      rewrite Hnone in E1. simpl in E1. injection E1 as <-.
      rewrite register_trace_old_handle by exact Hnext. rewrite app_nil_r.
      unfold register_events, prepare_events.
      rewrite output_lookup_dev, Hnone. simpl. rewrite Nat.eqb_refl. reflexivity.
    + pose proof (registered_all_fresh_handle l _ o h Hl' E1 Hsome) as Hge.
      rewrite register_events_old_handle by lia.
      rewrite (IH _ Hl' E1 Hsome), port_registered. reflexivity.
Qed.

Lemma lookup_dev_discovered_out (wiring : Wiring) (env : Ports) (s : State)
    (j : nat) (name : string) :
  out_ports env !! j = Some name ->
  lookup_dev (discovered wiring env s) (length (heap s) + length (in_ports env) + j) =
  new_device name j.
Proof.
  intros Hname. unfold lookup_dev, discovered. cbn [heap set_heap].
  rewrite lookup_app_r by lia.
  rewrite lookup_app_r by (rewrite length_fresh_devices; lia).
  rewrite length_fresh_devices.
  replace (length (heap s) + length (in_ports env) + j - length (heap s) -
           length (in_ports env)) with j by lia.
  rewrite (fresh_devices_lookup _ _ _ Hname). reflexivity.
Qed.

(** X13: a [wire] without ambiguous rule creates and opens one input
    connection per resolved rule, also when several rules name the same
    input device, but opens each output port it uses exactly once, however
    many rules share it: on the connection an active output device of the
    call holds, the call's only event is the opening of that device's
    port. *)
Theorem wire_opens_outputs_once (wiring : Wiring) (env : Ports) (s : State) :
  Forall (fun rule => ~ ambiguous env rule) wiring ->
  exists evs,
    log (snd (wire wiring env s)) =
      log s ++ map EvStderr (flat_map (diagnostics env) wiring) ++ evs /\
    length (List.filter is_open_in evs) = length (omap (resolved env) wiring) /\
    forall rule i j c,
      rule ∈ wiring -> resolved env rule = Some (i, j, c) ->
      exists h,
        open_output (snd (wire wiring env s))
          (length (heap s) + length (in_ports env) + j) = Some h /\
        List.filter (on_output h) evs = [EvOpenOut h j].
Proof.
  intros Hall. rewrite (wire_ok wiring env s Hall). cbn [snd]. unfold wired.
  pose proof (entries_fresh wiring env s
                (log s ++ map EvStderr (flat_map (diagnostics env) wiring))) as Hfresh.
  set (t := set_log _ (discovered wiring env s)) in *.
  set (bi := length (heap s)) in *. set (bo := bi + length (in_ports env)) in *.
  assert (Hvalid : Forall (valid_entry t) (entries env bi bo wiring)).
  { eapply Forall_impl; [exact Hfresh|]. intros e [He _]. exact He. }
  exists (register_trace (entries env bi bo wiring) t).
  split; [|split].
  - rewrite log_registered_all. unfold t. cbn [log set_log].
    rewrite <- app_assoc. reflexivity.
  - rewrite register_trace_open_in. unfold entries. apply length_map.
  - intros rule i j c Hrule Hres.
    pose proof (entries_elem env bi bo wiring rule i j c Hrule Hres) as Hentry.
    destruct (registered_all_effect _ t Hvalid)
      as (_ & _ & _ & _ & _ & _ & _ & E8 & _).
    destruct (E8 (bo + j)) as [h Hh].
    { apply list_elem_of_In, in_map_iff. exists (bi + i, bo + j, c).
      split; [reflexivity|apply list_elem_of_In, Hentry]. }
    exists h. split; [exact Hh|].
    assert (Hnone : open_output t (bo + j) = None).
    { change (open_output (discovered wiring env s) (bo + j) = None).
      rewrite open_output_discovered. unfold open_output.
      rewrite (proj2 (lookup_ge_None (heap s) (bo + j))); [reflexivity|].
      unfold bo, bi. lia. }
    rewrite (register_trace_open_once _ t (bo + j) h Hvalid Hnone Hh).
    apply resolved_lt in Hres. destruct Hres as [_ Hj].
    destruct (lookup_lt_is_Some_2 _ _ Hj) as [name Hname].
    change (lookup_dev t (bo + j)) with (lookup_dev (discovered wiring env s) (bo + j)).
    unfold bo, bi. rewrite (lookup_dev_discovered_out wiring env s j name Hname).
    reflexivity.
Qed.

Lemma wire_opens_outputs_once_witness :
  Forall (fun rule => ~ ambiguous rig rule) rig_wiring /\
  exists evs,
    log (snd (wire rig_wiring rig init)) =
      log init ++ map EvStderr (flat_map (diagnostics rig) rig_wiring) ++ evs /\
    length (List.filter is_open_in evs) = length (omap (resolved rig) rig_wiring).
Proof.
  assert (Hall : Forall (fun rule => ~ ambiguous rig rule) rig_wiring).
  { repeat constructor; vm_compute; intros [H|H]; lia. }
  split; [exact Hall|].
  destruct (wire_opens_outputs_once rig_wiring rig init Hall) as (evs & H1 & H2 & _).
  exists evs. auto.
Defined.

(** * [rewire] and [panic] against the devices in use *)

Lemma length_close_all (l : list ref) (s : State) :
  length (heap (close_all l s)) = length (heap s).
Proof.
  revert s. induction l as [|x l IH]; intros s; [reflexivity|].
  rewrite close_all_cons, IH. unfold close_step. cbn [heap set_log set_heap].
  apply length_alter.
Qed.

Lemma length_reset_state (s : State) :
  length (heap (reset_state s)) = length (heap s).
Proof.
  unfold reset_state. cbn [heap set_output_devices].
  rewrite length_close_all. cbn [heap set_input_devices]. apply length_close_all.
Qed.

(** X14: on a station that remembers a wiring, [rewire] retires every
    device object that existed before the call: those that were active are
    left closed on both sides, the others untouched, and none of them is
    active afterwards, whether the new wiring succeeds or raises; all
    devices active after [rewire] are newly discovered ones. *)
Theorem rewire_retires_old_devices (arg last : Wiring) (env : Ports) (s : State)
    (r : ref) :
  last_wiring s = Some last ->
  r < length (heap s) ->
  heap (snd (rewire arg env s)) !! r =
    (if decide (r ∈ input_devices s ++ output_devices s)
     then closed <$> heap s !! r else heap s !! r) /\
  (r ∉ input_devices (snd (rewire arg env s))) /\
  (r ∉ output_devices (snd (rewire arg env s))).
Proof.
  intros Hlast Hr. rewrite rewire_run, Hlast.
  destruct (wire_frame last env (reset_state s))
    as (Hkeep & _ & new_in & new_out & Hin & Hout & Fin & Fout).
  rewrite length_reset_state in *.
  destruct (reset_state_unwired s) as [Hi Ho]. rewrite Hi in Hin. rewrite Ho in Hout.
  split; [|split].
  - rewrite Hkeep by exact Hr. apply lookup_reset_state.
  - rewrite Hin. intros H. rewrite Forall_forall in Fin. apply Fin in H. lia.
  - rewrite Hout. intros H. rewrite Forall_forall in Fout. apply Fout in H. lia.
Qed.

Lemma rewire_retires_old_devices_witness :
  last_wiring rig_wired = Some rig_wiring /\ 2 < length (heap rig_wired) /\
  heap (snd (rewire [] two_pads rig_wired)) !! 2 =
    Some (mkDevice "synth" 0 None None []) /\
  (2 ∉ output_devices (snd (rewire [] two_pads rig_wired))).
Proof.
  assert (Hlast : last_wiring rig_wired = Some rig_wiring) by (vm_compute; reflexivity).
  assert (Hlt : 2 < length (heap rig_wired)) by (vm_compute; lia).
  split; [exact Hlast|]. split; [exact Hlt|].
  destruct (rewire_retires_old_devices [] rig_wiring two_pads rig_wired 2 Hlast Hlt)
    as (H1 & _ & H3).
  split; [|exact H3]. rewrite H1. vm_compute. reflexivity.
Defined.

Lemma panic_events_handle (h h' : handle) (names : list string) :
  h <> h' -> List.filter (on_output h) (panic_events h' names) = [].
Proof.
  intros Hne. unfold panic_events, enumerate.
  generalize (imap (fun i x => (i, x)) names). intros l.
  induction l as [|[portnum name] l IH]; [reflexivity|].
  cbn [flat_map]. rewrite List.filter_app, IH, app_nil_r. simpl.
  destruct (Nat.eqb_spec h h'); [contradiction|reflexivity].
Qed.

(** X15: [panic] works through a driver object of its own: in any state a
    station can reach, nothing [panic] does happens on a connection that a
    device of the station holds, so it neither sends on nor closes the
    output connection of an active device, and every device still holds
    the connections it held. *)
Theorem panic_uses_its_own_connection (env : Ports) (s : State) (r : ref) (h : handle) :
  reachable s ->
  open_output s r = Some h ->
  exists evs,
    log (snd (panic env s)) = log s ++ evs /\
    List.filter (on_output h) evs = [] /\
    open_output (snd (panic env s)) r = Some h.
Proof.
  intros Hreach Hh. apply reachable_wf in Hreach.
  destruct Hreach as [_ _ Wbound _]. apply Wbound in Hh as Hlt.
  rewrite panic_run. cbn [snd]. eexists. split; [reflexivity|]. split.
  - apply panic_events_handle. lia.
  - exact Hh.
Qed.

Lemma panic_uses_its_own_connection_witness :
  reachable rig_wired /\ open_output rig_wired 2 = Some 2 /\
  exists evs,
    log (snd (panic rig rig_wired)) = log rig_wired ++ evs /\
    List.filter (on_output 2) evs = [].
Proof.
  assert (Hreach : reachable rig_wired)
    by (exists [OpWire rig_wiring rig]; reflexivity).
  assert (Hh : open_output rig_wired 2 = Some 2) by (vm_compute; reflexivity).
  split; [exact Hreach|]. split; [exact Hh|].
  destruct (panic_uses_its_own_connection rig rig_wired 2 2 Hreach Hh)
    as (evs & H1 & H2 & _).
  exists evs. auto.
Defined.

(** * Registering a route, then receiving *)

Lemma lookup_listening_ne (self out r : ref) (channel : channel_spec) (s : State) :
  r <> self -> heap (listening self out channel s) !! r = heap s !! r.
Proof.
  intros Hne. unfold listening. cbn [heap set_log set_heap].
  apply list_lookup_alter_ne. congruence.
Qed.

(** X16: [forward_messages] between two devices of the store returns
    normally; the destination's output connection is open afterwards and,
    when it had to be opened, was opened before the source's input
    connection; the source holds a new input connection with the callback
    set on it, and its routes are the former ones followed by the new
    route; no other device object and no field of the station changes. *)
Theorem forward_messages_effect (self out : ref) (channel : channel_spec) (s : State) :
  is_Some (heap s !! self) ->
  is_Some (heap s !! out) ->
  exists s',
    forward_messages self out channel s = (Ok tt, s') /\
    is_Some (open_output s' out) /\
    open_input s' self = Some (next_handle (prepared out s)) /\
    routes_of s' self = routes_of s self ++ [(out, channel)] /\
    log s' = log s ++ prepare_events out s ++
             [ EvOpenIn (next_handle (prepared out s)) (port (lookup_dev s self));
               EvSetCallback (next_handle (prepared out s)) self ] /\
    (forall h, open_output s out = Some h ->
               open_output s' out = Some h /\ prepare_events out s = []) /\
    (forall r, r <> self -> r <> out -> heap s' !! r = heap s !! r) /\
    input_devices s' = input_devices s /\
    output_devices s' = output_devices s /\
    last_wiring s' = last_wiring s.
Proof.
  intros Hself Hout. eexists. split; [apply forward_messages_run|].
  assert (Hself' : is_Some (heap (prepared out s) !! self))
    by (apply valid_prepared, Hself).
  destruct (prepared_station out s) as (Hi & Ho & Hw & _).
  split; [|split; [|split; [|split; [|split; [|split]]]]].
  - rewrite open_output_listening, (open_output_prepared out out s Hout),
      decide_True by reflexivity. eauto.
  - apply open_input_listening, Hself'.
  - rewrite routes_of_listening by exact Hself'.
    rewrite routes_of_prepared, decide_True by reflexivity. reflexivity.
  - unfold listening. cbn [log set_log].
    rewrite log_prepared_events, port_prepared, <- app_assoc. reflexivity.
  - intros h Hh. split.
    + rewrite open_output_listening, (prepared_open out s h Hh). exact Hh.
    + unfold prepare_events. rewrite output_lookup_dev, Hh. reflexivity.
  - intros r Hr1 Hr2. rewrite lookup_listening_ne by exact Hr1.
    apply lookup_prepared_ne, Hr2.
  - unfold listening. cbn [input_devices output_devices last_wiring set_log set_heap
      set_next_handle]. auto.
Qed.

Lemma forward_messages_effect_witness :
  is_Some (heap (snd (discover_devices ["kbd"; "synth"] init)) !! 0) /\
  is_Some (heap (snd (discover_devices ["kbd"; "synth"] init)) !! 1) /\
  exists s',
    forward_messages 0 1 AllChannels (snd (discover_devices ["kbd"; "synth"] init)) =
      (Ok tt, s') /\
    is_Some (open_output s' 1).
Proof.
  assert (H0 : is_Some (heap (snd (discover_devices ["kbd"; "synth"] init)) !! 0))
    by (vm_compute; eauto).
  assert (H1 : is_Some (heap (snd (discover_devices ["kbd"; "synth"] init)) !! 1))
    by (vm_compute; eauto).
  split; [exact H0|]. split; [exact H1|].
  destruct (forward_messages_effect 0 1 AllChannels
              (snd (discover_devices ["kbd"; "synth"] init)) H0 H1)
    as (s' & Hrun & Hopen & _).
  exists s'. auto.
Defined.

(** X17: a route registered on a device without routes works at once: a
    message then delivered to the device's callback is sent, unchanged, on
    the destination's connection when the route's channel accepts the
    channel nibble of its first byte, and is dropped otherwise; the
    callback returns normally in both cases. *)
Theorem forward_then_receive (self out : ref) (channel : channel_spec) (s : State)
    (b : Z) (rest : list Z) :
  is_Some (heap s !! self) ->
  is_Some (heap s !! out) ->
  routes_of s self = [] ->
  exists s' h,
    forward_messages self out channel s = (Ok tt, s') /\
    open_output s' out = Some h /\
    callback self (b :: rest) s' =
    (Ok tt,
     set_log (log s' ++ if chan_accepts channel (Z.land b 15)
                        then [EvSend h (b :: rest)] else []) s').
Proof.
  intros Hself Hout Hnone.
  assert (Hself' : is_Some (heap (prepared out s) !! self))
    by (apply valid_prepared, Hself).
  pose proof (open_output_prepared out out s Hout) as Hopen.
  rewrite decide_True in Hopen by reflexivity.
  set (s' := listening self out channel (prepared out s)).
  assert (Hopen' : open_output s' out = Some (default (next_handle s) (open_output s out))).
  { unfold s'. rewrite open_output_listening. exact Hopen. }
  assert (Hroutes : routes_of s' self = [(out, channel)]).
  { unfold s'. rewrite routes_of_listening by exact Hself'.
    rewrite routes_of_prepared, Hnone, decide_True by reflexivity. reflexivity. }
  exists s', (default (next_handle s) (open_output s out)).
  split; [apply forward_messages_run|]. split; [exact Hopen'|].
  rewrite callback_run.
  - rewrite Hroutes. unfold forwarded. cbn [flat_map]. rewrite Hopen', app_nil_r.
    reflexivity.
  - rewrite Hroutes. intros o c Hin _. apply list_elem_of_singleton in Hin.
    injection Hin as -> ->. rewrite Hopen'. eauto.
Qed.

Lemma forward_then_receive_witness :
  is_Some (heap (snd (discover_devices ["kbd"; "synth"] init)) !! 0) /\
  is_Some (heap (snd (discover_devices ["kbd"; "synth"] init)) !! 1) /\
  routes_of (snd (discover_devices ["kbd"; "synth"] init)) 0 = [] /\
  exists s' h,
    forward_messages 0 1 (IntChannel 10)
      (snd (discover_devices ["kbd"; "synth"] init)) = (Ok tt, s') /\
    open_output s' 1 = Some h /\
    callback 0 [153; 36; 127]%Z s' =
      (Ok tt, set_log (log s' ++ [EvSend h [153; 36; 127]%Z]) s').
Proof.
  assert (H0 : is_Some (heap (snd (discover_devices ["kbd"; "synth"] init)) !! 0))
    by (vm_compute; eauto).
  assert (H1 : is_Some (heap (snd (discover_devices ["kbd"; "synth"] init)) !! 1))
    by (vm_compute; eauto).
  assert (H2 : routes_of (snd (discover_devices ["kbd"; "synth"] init)) 0 = [])
    by (vm_compute; reflexivity).
  split; [exact H0|]. split; [exact H1|]. split; [exact H2|].
  exact (forward_then_receive 0 1 (IntChannel 10)
           (snd (discover_devices ["kbd"; "synth"] init)) 153 [36; 127]%Z H0 H1 H2).
Defined.

(** * Ports with the same name *)

Lemma two_members_length {A} (l : list A) (x y : A) :
  In x l -> In y l -> x <> y -> 2 <= length l.
Proof.
  destruct l as [|a [|b l]]; simpl; intros Hx Hy Hne; try lia.
  destruct Hx as [Hx|[]], Hy as [Hy|[]]. congruence.
Qed.

Lemma candidates_elem (spec : user_spec) (names : list string) (i : nat) (name : string) :
  names !! i = Some name -> name_matches spec name = true ->
  In i (candidates spec names).
Proof.
  intros Hname Hm. unfold candidates. apply List.filter_In. split.
  - apply in_seq. apply lookup_lt_Some in Hname. lia.
  - rewrite Hname. exact Hm.
Qed.

(** X18: two ports of the same direction that carry the same name cannot
    be wired by name: every specification that matches one of them, plain
    or [ExactMatch], matches both, so [wire] raises on any wiring with a
    rule whose input specification matches that name (and likewise for
    outputs). *)
Theorem same_name_ports_are_ambiguous (wiring : Wiring) (env : Ports) (s : State)
    (rule : wiring_rule) (i j : nat) (name : string) :
  rule ∈ wiring ->
  i <> j ->
  (in_ports env !! i = Some name /\ in_ports env !! j = Some name /\
   name_matches rule.1.1 name = true) \/
  (out_ports env !! i = Some name /\ out_ports env !! j = Some name /\
   name_matches rule.2 name = true) ->
  ambiguous env rule /\
  exists spec, fst (wire wiring env s) = Raise (Exception_more_than_one spec).
Proof.
  intros Hrule Hne Hdup.
  assert (Hamb : ambiguous env rule).
  { destruct rule as [[input_spec channel] output_spec]. cbn [fst snd] in Hdup.
    unfold ambiguous.
    destruct Hdup as [(Hi & Hj & Hm)|(Hi & Hj & Hm)]; [left|right];
      apply (two_members_length _ i j); eauto using candidates_elem. }
  split; [exact Hamb|].
  destruct (wiring_cases env wiring) as [Hall|(pre & r & post & -> & Hpre & Hr)].
  - rewrite Forall_forall in Hall. exfalso. exact (Hall rule Hrule Hamb).
  - destruct (wire_raise pre r post env s Hpre Hr) as (spec & _ & ->).
    exists spec. reflexivity.
Qed.

Lemma same_name_ports_are_ambiguous_witness :
  (StrSpec "kbd", AllChannels, ExactMatch "USB MIDI") ∈
    [(StrSpec "kbd", AllChannels, ExactMatch "USB MIDI")] /\
  0 <> 1 /\
  exists spec,
    fst (wire [(StrSpec "kbd", AllChannels, ExactMatch "USB MIDI")]
              (mkPorts ["kbd"] ["USB MIDI"; "USB MIDI"]) init) =
    Raise (Exception_more_than_one spec).
Proof.
  assert (Hin : (StrSpec "kbd", AllChannels, ExactMatch "USB MIDI") ∈
                [(StrSpec "kbd", AllChannels, ExactMatch "USB MIDI")]) by left.
  assert (Hne : 0 <> 1) by lia.
  split; [exact Hin|]. split; [exact Hne|].
  refine (proj2 (same_name_ports_are_ambiguous _ (mkPorts ["kbd"] ["USB MIDI"; "USB MIDI"])
                   init _ 0 1 "USB MIDI" Hin Hne _)).
  right. repeat split; vm_compute; reflexivity.
Defined.
